(** * Commit scheduling and contribution aggregation: a shallow embedding

    The development embeds, function by function, the parts of the
    repository that schedule synthetic commits
    ([ReactProjectScanner.prepare_commits] in [test/q.py]), fetch and
    aggregate contribution data ([core/git_scraper.py],
    [core/contribution_analyzer.py]) and normalise date ranges
    ([core/date_handler.py], [utils/date_utils.py]).

    Python exceptions are values of [result]; the module-global random
    generator and the remote HTTP API are explicit arguments. *)

From Stdlib Require Import ZArith List String Ascii Bool Lia.
From Stdlib Require Import Sorting.Sorted Sorting.Permutation.
Import ListNotations.

Local Open Scope string_scope.
Local Open Scope list_scope.
Local Open Scope Z_scope.

(** ** Exceptions and fallible computations *)

Inductive exn : Type :=
| ValueError
| KeyError
| TypeError
| AttributeError
| IndexError
| OverflowError
| TimeoutError.   (* raised by the HTTP layer, not an aiohttp.ClientError *)

Inductive result (A : Type) : Type :=
| Ok (a : A)
| Raise (e : exn).

Arguments Ok {A} a.
Arguments Raise {A} e.

Definition rbind {A B : Type} (m : result A) (k : A -> result B) : result B :=
  match m with
  | Ok a => k a
  | Raise e => Raise e
  end.

Declare Scope result_scope.
Delimit Scope result_scope with res.
Notation "x <- m ;; k" := (rbind m (fun x => k))
  (at level 61, m at next level, right associativity) : result_scope.

Fixpoint mapM {A B : Type} (f : A -> result B) (l : list A) : result (list B) :=
  match l with
  | [] => Ok []
  | a :: rest =>
      (b <- f a ;; bs <- mapM f rest ;; Ok (b :: bs))%res
  end.

Definition len {A : Type} (l : list A) : Z := Z.of_nat (List.length l).

(** ** Dates

    A [datetime] is the proleptic Gregorian ordinal of its date (as
    [date.toordinal()]) and its time of day.  All datetimes of one run
    are either naive or carry the one configured time zone, so they
    compare field by field, as CPython compares them. *)

Module DateTime.

Record datetime : Type := mk_datetime {
  ordinal : Z;
  hour : Z;
  minute : Z;
  second : Z;
  microsecond : Z
}.

Definition MAXORDINAL : Z := 3652059.   (* date(9999, 12, 31).toordinal() *)

Definition is_leap (y : Z) : bool :=
  (y mod 4 =? 0) && (negb (y mod 100 =? 0) || (y mod 400 =? 0)).

Definition days_before_year (y : Z) : Z :=
  let y1 := y - 1 in y1 * 365 + y1 / 4 - y1 / 100 + y1 / 400.

Definition days_before_month (y m : Z) : Z :=
  nth (Z.to_nat m) [0; 0; 31; 59; 90; 120; 151; 181; 212; 243; 273; 304; 334] 0
  + (if (2 <? m) && is_leap y then 1 else 0).

Definition ymd2ord (y m d : Z) : Z :=
  days_before_year y + days_before_month y m + d.

(** [datetime(y, m, d)]: midnight of that day. *)
Definition midnight (y m d : Z) : datetime :=
  mk_datetime (ymd2ord y m d) 0 0 0 0.

(** [d.weekday()]: Monday is 0, Sunday is 6. *)
Definition weekday (d : datetime) : Z := (ordinal d + 6) mod 7.

Definition compare (a b : datetime) : comparison :=
  match ordinal a ?= ordinal b with
  | Eq =>
      match hour a ?= hour b with
      | Eq =>
          match minute a ?= minute b with
          | Eq =>
              match second a ?= second b with
              | Eq => microsecond a ?= microsecond b
              | c => c
              end
          | c => c
          end
      | c => c
      end
  | c => c
  end.

Definition leb (a b : datetime) : bool :=
  match compare a b with Gt => false | _ => true end.
Definition ltb (a b : datetime) : bool :=
  match compare a b with Lt => true | _ => false end.
Definition gtb (a b : datetime) : bool := ltb b a.

(** [d + timedelta(days=n)]; a date outside year 1..9999 overflows. *)
Definition add_days (d : datetime) (n : Z) : result datetime :=
  let o := ordinal d + n in
  if (1 <=? o) && (o <=? MAXORDINAL)
  then Ok (mk_datetime o (hour d) (minute d) (second d) (microsecond d))
  else Raise OverflowError.

(** [d.replace(hour=h, minute=m)]. *)
Definition replace (d : datetime) (h m : Z) : result datetime :=
  if (0 <=? h) && (h <=? 23) && (0 <=? m) && (m <=? 59)
  then Ok (mk_datetime (ordinal d) h m (second d) (microsecond d))
  else Raise ValueError.

End DateTime.
Import DateTime.

(** [utils/date_utils.py], [DateUtils.is_weekend], after [strptime] has
  parsed the string. *)
Module DateUtils.
Definition is_weekend (date_obj : datetime) : bool := 5 <=? weekday date_obj.
End DateUtils.

(** [core/date_handler.py] *)
Module DateHandler.

Record DateConfig : Type := {
  max_days_lookback : Z;
  max_days_ahead : Z
}.

Definition is_weekend (date : datetime) : bool :=
  existsb (Z.eqb (weekday date)) [5; 6].

(** [validate_date_range]; [now] is the clock reading
    [datetime.now(self.timezone)]. *)
Definition validate_date_range (date_config : DateConfig) (now : datetime)
    (start_date end_date : datetime) : result (datetime * datetime) :=
  if gtb start_date end_date then Raise ValueError
  else
    (max_past <- add_days now (- max_days_lookback date_config) ;;
     max_future <- add_days now (max_days_ahead date_config) ;;
     let start_date := if ltb start_date max_past then max_past else start_date in
     let end_date := if gtb end_date max_future then max_future else end_date in
     Ok (start_date, end_date))%res.

End DateHandler.

(** ** JSON values, as [response.json()] yields them

    Floats are left out: no field the code reads is one.  An object is the
    list of its items, in order, with distinct keys. *)

#[local] Set Warnings "-register-all".

Inductive json : Type :=
| JNull
| JBool (b : bool)
| JInt (z : Z)
| JStr (s : string)
| JArr (items : list json)
| JObj (fields : list (string * json)).

Fixpoint lookup (k : string) (fields : list (string * json)) : option json :=
  match fields with
  | [] => None
  | (k', v) :: rest => if String.eqb k' k then Some v else lookup k rest
  end.

(** [d.get(k, default)] *)
Definition py_get (d : json) (k : string) (default : json) : result json :=
  match d with
  | JObj fields =>
      Ok (match lookup k fields with Some v => v | None => default end)
  | _ => Raise AttributeError
  end.

(** [d[k]] with a string [k] *)
Definition py_getitem (d : json) (k : string) : result json :=
  match d with
  | JObj fields =>
      match lookup k fields with Some v => Ok v | None => Raise KeyError end
  | _ => Raise TypeError
  end.

Fixpoint chars (s : string) : list json :=
  match s with
  | EmptyString => []
  | String c rest => JStr (String c EmptyString) :: chars rest
  end.

(** [for x in v]: a list yields its items, a dict its keys, a string its
    characters; nothing else is iterable. *)
Definition py_iter (v : json) : result (list json) :=
  match v with
  | JArr items => Ok items
  | JObj fields => Ok (map (fun kv => JStr (fst kv)) fields)
  | JStr s => Ok (chars s)
  | _ => Raise TypeError
  end.

(** Dictionary keys: the hashable JSON values.  [True] and [1] are the
    same key, as in Python. *)
Inductive hkey : Type :=
| KNone
| KInt (z : Z)
| KStr (s : string).

Definition hkey_eqb (a b : hkey) : bool :=
  match a, b with
  | KNone, KNone => true
  | KInt x, KInt y => x =? y
  | KStr x, KStr y => String.eqb x y
  | _, _ => false
  end.

Definition hash_key (v : json) : result hkey :=
  match v with
  | JNull => Ok KNone
  | JBool b => Ok (KInt (if b then 1 else 0))
  | JInt z => Ok (KInt z)
  | JStr s => Ok (KStr s)
  | JArr _ | JObj _ => Raise TypeError
  end.

(** ** The remote API, [core/git_scraper.py] *)

(** What one [session.get] does: a response with its status and decoded
    body, an [aiohttp.ClientError] raised before any response, or an
    exception that is not a [ClientError]. *)
Inductive outcome : Type :=
| Responds (status : Z) (body : json)
| ClientFailure
| TimesOut.

Record Remote : Type := {
  commits_endpoint : string -> string -> datetime -> datetime -> outcome;
  url_endpoint : string -> outcome
}.

Module GitHubScraper.

(** [GitHubScraper()].  The class derives from [ScraperInterface], an
    [ABC] that declares [scrape_commits] and [scrape_contributors] with
    [@abstractmethod]; the remaining methods of the interface are
    concrete.  A class is instantiable only when every abstract method is
    overridden; otherwise the call raises [TypeError] before [__init__]
    runs. *)
Definition abstract_methods : list string :=
  ["scrape_commits"; "scrape_contributors"].

(** The methods the class body of [GitHubScraper] defines. *)
Definition defined_methods : list string :=
  ["__init__"; "__aenter__"; "__aexit__"; "fetch_repository_data";
   "fetch_contributions"; "_process_commits"; "_fetch_commit_details";
   "_parse_repo_url"].

Definition instantiate : result unit :=
  if forallb (fun m => existsb (String.eqb m) defined_methods) abstract_methods
  then Ok tt
  else Raise TypeError.

Fixpoint rstrip_slash (s : string) : string :=
  match s with
  | EmptyString => EmptyString
  | String c rest =>
      match rstrip_slash rest with
      | EmptyString => if Ascii.eqb c "/" then EmptyString else String c EmptyString
      | rest' => String c rest'
      end
  end.

Fixpoint split_slash (s : string) : list string :=
  match s with
  | EmptyString => [EmptyString]
  | String c rest =>
      if Ascii.eqb c "/" then EmptyString :: split_slash rest
      else
        match split_slash rest with
        | [] => [String c EmptyString]
        | h :: t => String c h :: t
        end
  end.

(** [s.replace(".git", "")] *)
Fixpoint remove_dot_git (s : string) : string :=
  match s with
  | String "." (String "g" (String "i" (String "t" rest))) => remove_dot_git rest
  | String c rest => String c (remove_dot_git rest)
  | EmptyString => EmptyString
  end.

(** [parts[-2], parts[-1]] *)
Definition last_two (parts : list string) : result (string * string) :=
  match rev parts with
  | z :: y :: _ => Ok (y, z)
  | _ => Raise IndexError
  end.

Definition _parse_repo_url (repo_url : string) : result (string * string) :=
  (let parts := split_slash (rstrip_slash repo_url) in
   p <- last_two parts ;;
   Ok (fst p, remove_dot_git (snd p)))%res.

(** A failed detail fetch is logged and replaced by the empty record. *)
Definition _fetch_commit_details (r : Remote) (commit_url : json) : result json :=
  match commit_url with
  | JStr u =>
      match url_endpoint r u with
      | Responds status body =>
          if 400 <=? status then Ok (JObj []) else Ok body
      | ClientFailure => Ok (JObj [])
      | TimesOut => Raise TimeoutError
      end
  | _ => Raise TypeError
  end.

(** One coroutine per commit, all handed to a single [asyncio.gather];
    any exception makes the whole step return the empty list. *)
Definition _process_commits (r : Remote) (commits_data : json) : list json :=
  match
    (commits <- py_iter commits_data ;;
     tasks <- mapM (fun commit => py_getitem commit "url") commits ;;
     mapM (_fetch_commit_details r) tasks)%res
  with
  | Ok enriched_data => enriched_data
  | Raise _ => []
  end.

Definition fetch_contributions (r : Remote) (repo_url : string)
    (start_date end_date : datetime) : result (list json) :=
  (repo_info <- _parse_repo_url repo_url ;;
   match commits_endpoint r (fst repo_info) (snd repo_info) start_date end_date with
   | Responds status commits_data =>
       if 400 <=? status then Ok [] else Ok (_process_commits r commits_data)
   | ClientFailure => Ok []
   | TimesOut => Raise TimeoutError
   end)%res.

End GitHubScraper.

(** ** [core/contribution_analyzer.py] *)

Module ContributionAnalyzer.

(** The [contributions] dict: its items in insertion order. *)
Definition counts : Type := list (hkey * Z).

Fixpoint get_count (author : hkey) (contributions : counts) : option Z :=
  match contributions with
  | [] => None
  | (k, n) :: rest => if hkey_eqb k author then Some n else get_count author rest
  end.

(** [contributions[author] += 1] if present, else [contributions[author] = 1] *)
Fixpoint increment (author : hkey) (contributions : counts) : counts :=
  match contributions with
  | [] => [(author, 1)]
  | (k, n) :: rest =>
      if hkey_eqb k author then (k, n + 1) :: rest
      else (k, n) :: increment author rest
  end.

(** [commit.get("commit", {}).get("author", {}).get("name", "Unknown")] *)
Definition author_of (commit : json) : result hkey :=
  (c <- py_get commit "commit" (JObj []) ;;
   a <- py_get c "author" (JObj []) ;;
   name <- py_get a "name" (JStr "Unknown") ;;
   hash_key name)%res.

Fixpoint count_commits (commit_data : list json) (contributions : counts)
    : result counts :=
  match commit_data with
  | [] => Ok contributions
  | commit :: rest =>
      (author <- author_of commit ;;
       count_commits rest (increment author contributions))%res
  end.

(** [async with GitHubScraper() as scraper:] comes first inside the
    [try]; whatever is raised there or later is logged and raised again. *)
Definition analyze_contributions (r : Remote) (repo_url : string)
    (start_date end_date : datetime) : result counts :=
  (scraper <- GitHubScraper.instantiate ;;
   commit_data <- GitHubScraper.fetch_contributions r repo_url start_date end_date ;;
   count_commits commit_data [])%res.

(** [sorted(items, key=lambda x: x[1], reverse=True)]: stable, so items
    with equal counts keep their order. *)
Fixpoint insert_desc (x : hkey * Z) (l : list (hkey * Z)) : list (hkey * Z) :=
  match l with
  | [] => [x]
  | y :: rest =>
      if snd y <=? snd x then x :: y :: rest else y :: insert_desc x rest
  end.

(** Descending order of the counts. *)
Definition desc (x y : hkey * Z) : Prop := snd y <= snd x.

Definition sorted_desc (items : list (hkey * Z)) : list (hkey * Z) :=
  fold_right insert_desc [] items.

(** [l[:n]] *)
Definition slice_to {A : Type} (l : list A) (n : Z) : list A :=
  if 0 <=? n then firstn (Z.to_nat n) l
  else firstn (Z.to_nat (len l + n)) l.

Record contributor : Type := {
  name : hkey;
  contributions : Z
}.

Definition top_of (contribs : counts) (top_n : Z) : list contributor :=
  map (fun nc => {| name := fst nc; contributions := snd nc |})
      (slice_to (sorted_desc contribs) top_n).

(** The counts are obtained by calling [analyze_contributions] again. *)
Definition get_top_contributors (r : Remote) (repo_url : string)
    (start_date end_date : datetime) (top_n : Z) : result (list contributor) :=
  (contribs <- analyze_contributions r repo_url start_date end_date ;;
   Ok (top_of contribs top_n))%res.

(** The sum of the per-author counts. *)
Definition total (contributions : counts) : Z :=
  fold_right (fun kn acc => snd kn + acc) 0 contributions.

(** The count recorded for [author], 0 when it has no entry. *)
Definition count_of (author : hkey) (contributions : counts) : Z :=
  match get_count author contributions with Some n => n | None => 0 end.

(** How many times [author] occurs in a list of authors. *)
Fixpoint occurrences (author : hkey) (authors : list hkey) : Z :=
  match authors with
  | [] => 0
  | a :: rest =>
      (if hkey_eqb a author then 1 else 0) + occurrences author rest
  end.

(** The distinct authors of a list, in order of first appearance, after
    those already [seen]. *)
Fixpoint first_seen (seen authors : list hkey) : list hkey :=
  match authors with
  | [] => seen
  | a :: rest =>
      if existsb (hkey_eqb a) seen then first_seen seen rest
      else first_seen (seen ++ [a]) rest
  end.

(** [x] occurs somewhere before [y] in [l]. *)
Definition before {A : Type} (x y : A) (l : list A) : Prop :=
  exists l1 l2 l3, l = l1 ++ x :: l2 ++ y :: l3.

(** What the detail request of a listed commit does. *)
Definition detail_outcome (r : Remote) (commit : json) : option outcome :=
  match py_getitem commit "url" with
  | Ok (JStr u) => Some (url_endpoint r u)
  | _ => None
  end.

(** The detail fetch answers with a record whose author can be read. *)
Definition fetch_succeeds (r : Remote) (commit : json) : bool :=
  match detail_outcome r commit with
  | Some (Responds status body) =>
      (status <? 400)
      && match author_of body with Ok _ => true | Raise _ => false end
  | _ => false
  end.

(** The detail fetch fails with an [aiohttp.ClientError]: no response,
    or an error status such as 404. *)
Definition fetch_fails (r : Remote) (commit : json) : bool :=
  match detail_outcome r commit with
  | Some (Responds status _) => 400 <=? status
  | Some ClientFailure => true
  | _ => false
  end.

(** The listing fails with an [aiohttp.ClientError]. *)
Definition listing_fails (o : outcome) : bool :=
  match o with
  | Responds status _ => 400 <=? status
  | ClientFailure => true
  | TimesOut => false
  end.

(** The listing fails, with a client error or with any other exception. *)
Definition listing_errors (o : outcome) : bool :=
  match o with
  | Responds status _ => 400 <=? status
  | ClientFailure => true
  | TimesOut => true
  end.

(** The record has no author name: one of the keys ["commit"],
    ["author"], ["name"] is absent on the way to it. *)
Definition lacks_author (record : json) : bool :=
  match record with
  | JObj fields =>
      match lookup "commit" fields with
      | None => true
      | Some (JObj cfields) =>
          match lookup "author" cfields with
          | None => true
          | Some (JObj afields) =>
              match lookup "name" afields with
              | None => true
              | Some _ => false
              end
          | Some _ => false
          end
      | Some _ => false
      end
  | _ => false
  end.

Definition Unknown : hkey := KStr "Unknown".

(** The counting loop once the authors have been read. *)
Definition tally (authors : list hkey) (contributions : counts) : counts :=
  fold_left (fun c a => increment a c) authors contributions.

End ContributionAnalyzer.

(** ** The module-global generator of [random]

    The generator is the stream of raw draws it will yield and the number
    of draws already consumed; every call of [random] advances it. *)

Module Random.

Record Rng : Type := {
  draws : nat -> Z;
  pos : nat
}.

(** A computation that draws from the generator and may raise. *)
Definition M (A : Type) : Type := Rng -> result A * Rng.

Definition ret {A : Type} (a : A) : M A := fun g => (Ok a, g).

Definition raise {A : Type} (e : exn) : M A := fun g => (Raise e, g).

Definition bind {A B : Type} (m : M A) (k : A -> M B) : M B :=
  fun g =>
    match m g with
    | (Ok a, g') => k a g'
    | (Raise e, g') => (Raise e, g')
    end.

Definition lift {A : Type} (r : result A) : M A := fun g => (r, g).

(** The generator after one draw. *)
Definition advance (g : Rng) : Rng :=
  {| draws := draws g; pos := S (pos g) |}.

(** [_randbelow(n)], [n > 0] *)
Definition randbelow (n : Z) : M Z :=
  fun g => (Ok (draws g (pos g) mod n), advance g).

(** [random.randint(a, b)]: uniform on [a..b]; an empty range raises. *)
Definition randint (a b : Z) : M Z :=
  if b <? a then raise ValueError
  else bind (randbelow (b - a + 1)) (fun x => ret (a + x)).

(** [random.choice(seq)] *)
Definition choice {A : Type} (seq : list A) : M A :=
  match seq with
  | [] => raise IndexError
  | d :: _ => bind (randbelow (len seq)) (fun i => ret (nth (Z.to_nat i) seq d))
  end.

(** Two generator states agree when the draws they will yield from now
    on are the same. *)
Definition agree (g1 g2 : Rng) : Prop :=
  forall i : nat, draws g1 (pos g1 + i)%nat = draws g2 (pos g2 + i)%nat.

(** [m] depends on the generator only through the draws to come. *)
Definition respects {A : Type} (m : M A) : Prop :=
  forall g1 g2, agree g1 g2 ->
    fst (m g1) = fst (m g2) /\ agree (snd (m g1)) (snd (m g2)).

(** [m] never raises, whatever the generator, and its value satisfies [P]. *)
Definition ensures {A : Type} (m : M A) (P : A -> Prop) : Prop :=
  forall g, exists a g', m g = (Ok a, g') /\ P a.

(** The generator that will yield the listed draws, then zeros. *)
Definition of_draws (l : list Z) : Rng :=
  {| draws := fun i => nth i l 0; pos := 0%nat |}.

End Random.

Declare Scope rng_scope.
Delimit Scope rng_scope with rng.
Notation "x <- m ;; k" := (Random.bind m (fun x => k))
  (at level 61, m at next level, right associativity) : rng_scope.

(** ** The scheduler, [test/q.py] *)

Module ReactProjectScanner.
Import Random.

Record FileInfo : Type := {
  path : string;
  size : Z;
  last_modified : datetime;
  content : string;
  type : string;
  category : string;
  complexity : Z
}.

Record Scanner : Type := {
  start_date : datetime;
  end_date : datetime;
  commits_per_day : Z;
  files : list FileInfo
}.

Definition group_key : Type := (string * string)%type.

Definition key_eqb (a b : group_key) : bool :=
  String.eqb (fst a) (fst b) && String.eqb (snd a) (snd b).

(** The [type_groups] dict: its items in insertion order. *)
Definition groups : Type := list (group_key * list FileInfo).

(** [type_groups.setdefault(key, []).append(file)] *)
Fixpoint setdefault_append (key : group_key) (file : FileInfo)
    (type_groups : groups) : groups :=
  match type_groups with
  | [] => [(key, [file])]
  | (k, v) :: rest =>
      if key_eqb k key then (k, v ++ [file]) :: rest
      else (k, v) :: setdefault_append key file rest
  end.

Definition group_by_type (fs : list FileInfo) : groups :=
  fold_left (fun g file => setdefault_append (type file, category file) file g)
            fs [].

(** [type_groups[key] = v] *)
Fixpoint setitem (key : group_key) (v : list FileInfo) (type_groups : groups)
    : groups :=
  match type_groups with
  | [] => [(key, v)]
  | (k, old) :: rest =>
      if key_eqb k key then (k, v) :: rest
      else (k, old) :: setitem key v rest
  end.

Definition nonempty {A : Type} (l : list A) : bool :=
  match l with [] => false | _ :: _ => true end.

(** [any(type_groups.values())] *)
Definition any_files (type_groups : groups) : bool :=
  existsb (fun kv => nonempty (snd kv)) type_groups.

Definition commit : Type := (datetime * list FileInfo)%type.

(** A commit of the day [current_date]: that date, a time of day drawn in
    09:00..18:59, and at least one file. *)
Definition on_day (current_date : datetime) (c : commit) : Prop :=
  ordinal (fst c) = ordinal current_date /\
  9 <= hour (fst c) <= 18 /\
  0 <= minute (fst c) <= 59 /\
  second (fst c) = second current_date /\
  microsecond (fst c) = microsecond current_date /\
  snd c <> [].

(** A commit dated within the days [lo..hi], at a time of day in
    09:00..18:59. *)
Definition within (lo hi : datetime) (c : commit) : Prop :=
  ordinal lo <= ordinal (fst c) <= ordinal hi /\
  9 <= hour (fst c) <= 18 /\
  0 <= minute (fst c) <= 59.

(** Commits in calendar order of their days. *)
Definition day_order (c1 c2 : commit) : Prop :=
  ordinal (fst c1) <= ordinal (fst c2).

(** The body of [for _ in range(daily_commits)], [n] iterations left. *)
Fixpoint day_loop (n : nat) (current_date : datetime) (type_groups : groups)
    (commits : list commit) : M (groups * list commit) :=
  match n with
  | O => ret (type_groups, commits)
  | S n' =>
      if negb (any_files type_groups) then ret (type_groups, commits)
      else
        let available_groups :=
          filter (fun kv => nonempty (snd kv)) type_groups in
        if negb (nonempty available_groups) then ret (type_groups, commits)
        else
          (chosen <- choice available_groups ;;
           let group_key := fst chosen in
           let group_files := snd chosen in
           files_count <- randint 1 (Z.min 5 (len group_files)) ;;
           let commit_files := firstn (Z.to_nat files_count) group_files in
           let type_groups :=
             setitem group_key (skipn (Z.to_nat files_count) group_files)
                     type_groups in
           hour <- randint 9 18 ;;
           minute <- randint 0 59 ;;
           commit_time <- lift (replace current_date hour minute) ;;
           day_loop n' current_date type_groups
                    (commits ++ [(commit_time, commit_files)]))%rng
  end.

(** [while current_date <= end_date], with [fuel] iterations allowed;
    [None] when they do not suffice. *)
Fixpoint date_loop (fuel : nat) (sc : Scanner) (current_date : datetime)
    (type_groups : groups) (commits : list commit) (g : Rng)
    : option (result (list commit) * Rng) :=
  match fuel with
  | O => None
  | S fuel' =>
      if leb current_date (end_date sc) then
        match
          (daily_commits <- randint 1 (commits_per_day sc) ;;
           day_loop (Z.to_nat daily_commits) current_date type_groups commits)%rng g
        with
        | (Raise e, g') => Some (Raise e, g')
        | (Ok (type_groups', commits'), g') =>
            match add_days current_date 1 with
            | Raise e => Some (Raise e, g')
            | Ok next_date => date_loop fuel' sc next_date type_groups' commits' g'
            end
        end
      else Some (Ok commits, g)
  end.

(** One iteration per calendar day from [start_date] to [end_date], and
    the test that ends the loop. *)
Definition enough_fuel (sc : Scanner) : nat :=
  S (Z.to_nat (ordinal (end_date sc) - ordinal (start_date sc) + 1)).

(** [prepare_commits]; [total_days] is computed there and never used. *)
Definition prepare_commits (sc : Scanner) (g : Rng)
    : option (result (list commit) * Rng) :=
  if negb (nonempty (files sc)) then Some (Raise ValueError, g)
  else date_loop (enough_fuel sc) sc (start_date sc)
                 (group_by_type (files sc)) [] g.

(** Two calls in a row on the same scanner: the second starts from the
    generator the first one left behind. *)
Definition prepare_commits_twice (sc : Scanner) (g : Rng)
    : option (result (list commit)) * option (result (list commit)) :=
  match prepare_commits sc g with
  | None => (None, None)
  | Some (r1, g1) => (Some r1, option_map fst (prepare_commits sc g1))
  end.

End ReactProjectScanner.

(** ** Concrete inputs used by the examples below *)

Module Scenarios.
Import Random ReactProjectScanner.

Definition file_named (p : string) : FileInfo :=
  {| path := p; size := 120; last_modified := midnight 2023 12 1;
     content := "export default function App() {}";
     type := "Component"; category := "Logic"; complexity := 1 |}.

Definition monday : datetime := midnight 2024 1 1.
Definition saturday : datetime := midnight 2024 1 6.

(** One file, a window that is the single Saturday 2024-01-06. *)
Definition saturday_scanner : Scanner :=
  {| start_date := saturday; end_date := saturday;
     commits_per_day := 1; files := [file_named "src/App.jsx"] |}.

(** Two files, the single Monday 2024-01-01, up to two commits a day. *)
Definition monday_scanner : Scanner :=
  {| start_date := monday; end_date := monday;
     commits_per_day := 2;
     files := [file_named "src/App.jsx"; file_named "src/Nav.jsx"] |}.

(** A generator that has already made [k] draws and will yield the
    listed ones next. *)
Definition after_draws (k : nat) (l : list Z) : Rng :=
  {| draws := fun i => nth (i - k) l 0; pos := k |}.

(** A commit reference of the listing, and a commit detail record. *)
Definition commit_ref (url : string) : json :=
  JObj [("sha", JStr url); ("url", JStr url)].

Definition detail_by (author : string) : json :=
  JObj [("commit",
         JObj [("author", JObj [("name", JStr author);
                                ("date", JStr "2024-01-01T10:00:00Z")]);
               ("message", JStr "update")])].

Fixpoint find_outcome (u : string) (table : list (string * outcome)) : outcome :=
  match table with
  | [] => ClientFailure
  | (u', o) :: rest => if String.eqb u' u then o else find_outcome u rest
  end.

(** A remote whose listing answers 200 with one reference per table row
    and whose detail endpoint answers as the table says. *)
Definition remote_of (table : list (string * outcome)) : Remote :=
  {| commits_endpoint := fun _ _ _ _ =>
       Responds 200 (JArr (map (fun row => commit_ref (fst row)) table));
     url_endpoint := fun u => find_outcome u table |}.

Definition not_found : outcome :=
  Responds 404 (JObj [("message", JStr "Not Found")]).

Fixpoint numbered (n : nat) (authors : list string) : list (string * outcome) :=
  match authors with
  | [] => []
  | a :: rest =>
      (String (ascii_of_nat (97 + n)) EmptyString, Responds 200 (detail_by a))
        :: numbered (S n) rest
  end.

(** Every listed commit is fetched successfully; the i-th is by the i-th
    author of the list. *)
Definition remote_with_authors (authors : list string) : Remote :=
  remote_of (numbered 0 authors).

(** Five commits; the detail of the third answers 404. *)
Definition remote_one_missing : Remote :=
  remote_of [("c1", Responds 200 (detail_by "x"));
             ("c2", Responds 200 (detail_by "y"));
             ("c3", not_found);
             ("c4", Responds 200 (detail_by "x"));
             ("c5", Responds 200 (detail_by "z"))].

(** The listing itself answers 500. *)
Definition remote_listing_down : Remote :=
  {| commits_endpoint := fun _ _ _ _ =>
       Responds 500 (JObj [("message", JStr "Server Error")]);
     url_endpoint := fun _ => ClientFailure |}.

(** The listing times out. *)
Definition remote_listing_timeout : Remote :=
  {| commits_endpoint := fun _ _ _ _ => TimesOut;
     url_endpoint := fun _ => ClientFailure |}.

Definition repo : string := "https://github.com/octo/demo.git".

Definition thirty_days : DateHandler.DateConfig :=
  {| DateHandler.max_days_lookback := 30; DateHandler.max_days_ahead := 30 |}.

End Scenarios.

(** ** Datetime arithmetic

    [datetime + timedelta] and [datetime - datetime], as CPython computes
    them: through the number of microseconds since the midnight that
    begins day 0. *)

Module TimeDelta.

Definition SECOND_US : Z := 1000000.
Definition DAY_US : Z := 86400000000.

(** The fields of the time of day are in range, as the constructor of
    [datetime] demands. *)
Definition valid_time (d : datetime) : Prop :=
  0 <= hour d < 24 /\ 0 <= minute d < 60 /\
  0 <= second d < 60 /\ 0 <= microsecond d < 1000000.

Definition to_micro (d : datetime) : Z :=
  (((ordinal d * 24 + hour d) * 60 + minute d) * 60 + second d) * 1000000
  + microsecond d.

Definition of_micro (us : Z) : datetime :=
  let secs := us / 1000000 in
  let mins := secs / 60 in
  let hours := mins / 60 in
  mk_datetime (hours / 24) (hours mod 24) (mins mod 60) (secs mod 60)
              (us mod 1000000).

(** [d + timedelta(microseconds=us)] *)
Definition add_timedelta (d : datetime) (us : Z) : result datetime :=
  let r := of_micro (to_micro d + us) in
  if (1 <=? ordinal r) && (ordinal r <=? MAXORDINAL) then Ok r
  else Raise OverflowError.

(** [(a - b).days] *)
Definition days_between (a b : datetime) : Z :=
  (to_micro a - to_micro b) / DAY_US.

(** The datetime [i] days after [d], at the same time of day. *)
Definition plus_days (d : datetime) (i : Z) : datetime :=
  mk_datetime (ordinal d + i) (hour d) (minute d) (second d) (microsecond d).

(** [range(n)] *)
Definition range (n : Z) : list Z := map Z.of_nat (seq 0 (Z.to_nat n)).

(** [min(a, b)] *)
Definition py_min (a b : datetime) : datetime := if ltb b a then b else a.

End TimeDelta.
Import TimeDelta.

(** ** The other operations of [core/date_handler.py] *)

Module DateHandlerOps.

Definition get_date_range (start_date end_date : datetime)
    : result (list datetime) :=
  mapM (fun i => add_timedelta start_date (i * DAY_US))
       (range (days_between end_date start_date + 1)).

Definition add_days_to_date (date : datetime) (days : Z) : result datetime :=
  add_timedelta date (days * DAY_US).

Definition subtract_days_from_date (date : datetime) (days : Z)
    : result datetime :=
  add_timedelta date (- (days * DAY_US)).

(** [generate_date_windows]: the [while] loop with [fuel] iterations
    allowed, [None] when they do not suffice. *)
Fixpoint windows_loop (fuel : nat) (current_start end_date : datetime)
    (window_size : Z) (windows : list (datetime * datetime))
    : option (result (list (datetime * datetime))) :=
  match fuel with
  | O => None
  | S fuel' =>
      if ltb current_start end_date then
        match add_timedelta current_start (window_size * DAY_US) with
        | Raise e => Some (Raise e)
        | Ok shifted =>
            let window_end := py_min shifted end_date in
            match add_timedelta window_end SECOND_US with
            | Raise e => Some (Raise e)
            | Ok next =>
                windows_loop fuel' next end_date window_size
                             (windows ++ [(current_start, window_end)])
            end
        end
      else Some (Ok windows)
  end.

Definition generate_date_windows (fuel : nat) (start_date end_date : datetime)
    (window_size : Z) : option (result (list (datetime * datetime))) :=
  windows_loop fuel start_date end_date window_size [].

(** Windows that follow one another from the instant [cs]: each starts
    one second after the previous one ends, runs for [window_size] days
    or up to the instant [e] if that comes first, and the sequence stops
    at the first start that is not before [e]. *)
Fixpoint tiles (cs e window_size : Z) (ws : list (datetime * datetime)) : Prop :=
  match ws with
  | [] => e <= cs
  | (a, b) :: rest =>
      valid_time a /\ valid_time b /\
      to_micro a = cs /\ cs < e /\
      to_micro b = Z.min (cs + window_size * DAY_US) e /\
      tiles (to_micro b + SECOND_US) e window_size rest
  end.

End DateHandlerOps.

(** ** [utils/date_utils.py], [get_day_of_week], after [strptime] has
    parsed the string; [strftime('%A')] in the C locale. *)

Module DateUtilsOps.

Definition day_names : list string :=
  ["Monday"; "Tuesday"; "Wednesday"; "Thursday"; "Friday"; "Saturday"; "Sunday"].

Definition get_day_of_week (date_obj : datetime) : string :=
  nth (Z.to_nat (weekday date_obj)) day_names "".

End DateUtilsOps.

(** ** [core/contribution_analyzer.py], [analyze_daily_contributions] *)

Module DailyContributions.
Import ContributionAnalyzer.

(** [bool(v)] *)
Definition py_truthy (v : json) : bool :=
  match v with
  | JNull => false
  | JBool b => b
  | JInt z => negb (z =? 0)
  | JStr s => negb (String.eqb s "")
  | JArr items => match items with [] => false | _ :: _ => true end
  | JObj fields => match fields with [] => false | _ :: _ => true end
  end.

(** [commit.get("commit", {}).get("author", {}).get("date", "")] *)
Definition date_str_of (commit : json) : result json :=
  (c <- py_get commit "commit" (JObj []) ;;
   a <- py_get c "author" (JObj []) ;;
   py_get a "date" (JStr ""))%res.

(** The loop over the fetched records.  [day_key s] stands for
    [datetime.strptime(s, "%Y-%m-%dT%H:%M:%SZ").date().strftime("%Y-%m-%d")],
    which raises [ValueError] on a string of another shape. *)
Fixpoint count_days (day_key : string -> result string)
    (commit_data : list json) (daily_contributions : counts) : result counts :=
  match commit_data with
  | [] => Ok daily_contributions
  | commit :: rest =>
      (commit_date_str <- date_str_of commit ;;
       if py_truthy commit_date_str then
         match commit_date_str with
         | JStr s =>
             commit_date_key <- day_key s ;;
             count_days day_key rest
                        (increment (KStr commit_date_key) daily_contributions)
         | _ => Raise TypeError
         end
       else count_days day_key rest daily_contributions)%res
  end.

(** As in [analyze_contributions], [async with GitHubScraper() as scraper:]
    comes first inside the [try]. *)
Definition analyze_daily_contributions (day_key : string -> result string)
    (r : Remote) (repo_url : string) (start_date end_date : datetime)
    : result counts :=
  (scraper <- GitHubScraper.instantiate ;;
   commit_data <- GitHubScraper.fetch_contributions r repo_url start_date end_date ;;
   count_days day_key commit_data [])%res.

(** The record carries a date that the loop will count. *)
Definition dated (commit : json) : bool :=
  match date_str_of commit with
  | Ok v => py_truthy v
  | Raise _ => false
  end.

(** The record can be processed: its date, if it has one, is a string
    that [day_key] accepts. *)
Definition countable (day_key : string -> result string) (commit : json) : bool :=
  match date_str_of commit with
  | Ok v =>
      if py_truthy v then
        match v with
        | JStr s => match day_key s with Ok _ => true | Raise _ => false end
        | _ => false
        end
      else true
  | Raise _ => false
  end.

End DailyContributions.

(** ** Invariants of the scheduler's state *)

Module SchedulerState.
Import ReactProjectScanner.

Definition file_key (file : FileInfo) : group_key := (type file, category file).

(** All the files of the list belong to the group [k]. *)
Definition of_group (k : group_key) (fs : list FileInfo) : Prop :=
  Forall (fun file => file_key file = k) fs.

Definition committed (commits : list commit) : list FileInfo :=
  List.concat (map snd commits).

Definition remaining (type_groups : groups) : list FileInfo :=
  List.concat (map snd type_groups).

(** What the loops keep true of the groups and of the commits made so
    far, for the scanned files [fs]. *)
Definition consistent (fs : list FileInfo) (type_groups : groups)
    (commits : list commit) : Prop :=
  NoDup (map fst type_groups) /\
  Forall (fun kv => of_group (fst kv) (snd kv)) type_groups /\
  Permutation (committed commits ++ remaining type_groups) fs /\
  Forall (fun c => 1 <= len (snd c) <= 5 /\ exists k, of_group k (snd c)) commits.

(** The commits of the list dated on day [o]. *)
Definition on_ordinal (o : Z) (commits : list commit) : list commit :=
  filter (fun c => ordinal (fst c) =? o) commits.

(** The value of the loop variable [current_date] on day [o]: the loop
    adds whole days to [start_date], so the time of day stays that of
    [start_date]. *)
Definition at_day (start_date : datetime) (o : Z) : datetime :=
  mk_datetime o (hour start_date) (minute start_date)
              (second start_date) (microsecond start_date).

(** The commits of the list dated before day [o]. *)
Definition before_day (o : Z) (commits : list commit) : list commit :=
  filter (fun c => ordinal (fst c) <? o) commits.

End SchedulerState.

(** ** [services/analysis_service.py], on the commits that
    [list_commits] returns *)

Module AnalysisService.
Import ContributionAnalyzer.

(** The loop of [_calculate_author_activity]: an author not yet seen
    enters with 0, then every commit adds 1. *)
Fixpoint author_activity_loop (commits : list json) (author_activity : counts)
    : result counts :=
  match commits with
  | [] => Ok author_activity
  | commit :: rest =>
      (a <- py_getitem commit "author" ;;
       author <- hash_key a ;;
       author_activity_loop rest (increment author author_activity))%res
  end.

Definition _calculate_author_activity (commits : list json) : result counts :=
  author_activity_loop commits [].

Definition identify_active_contributors (commits : list json)
    : result (list hkey) :=
  (author_activity <- _calculate_author_activity commits ;;
   Ok (map fst (sorted_desc author_activity)))%res.

(** [commit["author"]], as a dictionary key. *)
Definition author_key (commit : json) : result hkey :=
  (a <- py_getitem commit "author" ;; hash_key a)%res.

End AnalysisService.

(** ** The pattern generator, [q.py] *)

Module PatternGenerator.

(** The image after [convert("L")]: its size and its grey levels. *)
Record Image : Type := {
  width : Z;
  height : Z;
  getpixel : Z -> Z -> Z
}.

Definition START_DATE : datetime := midnight 2024 1 1.

(** [START_DATE + timedelta(weeks=x, days=y)], in range for every cell of
    a 52 by 7 grid. *)
Definition cell_date (x y : Z) : datetime := plus_days START_DATE (x * 7 + y).

(** The dates of the commits that the body of [main] creates, in order;
    [main] itself prints the error and creates nothing more. *)
Definition pattern_commits (img : Image) : result (list datetime) :=
  if negb (width img =? 52) || negb (height img =? 7) then Raise ValueError
  else
    Ok (flat_map
          (fun y =>
             flat_map
               (fun x => if getpixel img x y <? 128 then [cell_date x y] else [])
               (range (width img)))
          (range (height img))).

End PatternGenerator.

(** ** Shapes of strings *)

Module StringShapes.

(** The character [c] occurs in [s]. *)
Fixpoint has_char (c : ascii) (s : string) : bool :=
  match s with
  | EmptyString => false
  | String c' rest => Ascii.eqb c' c || has_char c rest
  end.

End StringShapes.

(** ** More concrete inputs *)

Module MoreScenarios.
Import Scenarios.

(** A fixed-width reading of the date: the first ten characters. *)
Definition first_ten (s : string) : result string :=
  if (10 <=? Z.of_nat (String.length s))%Z then Ok (substring 0 10 s)
  else Raise ValueError.

Definition noon (y m d : Z) : datetime := mk_datetime (ymd2ord y m d) 12 0 0 0.

(** A commit as [list_commits] describes it. *)
Definition local_commit (author : string) : json :=
  JObj [("hash", JStr "0a1b2c"); ("author", JStr author);
        ("message", JStr "update"); ("date", JStr "2024-01-01T10:00:00")].

(** A 52 by 7 image, dark on its diagonal. *)
Definition diagonal : PatternGenerator.Image :=
  {| PatternGenerator.width := 52; PatternGenerator.height := 7;
     PatternGenerator.getpixel := fun x y => if x =? y then 0 else 255 |}.

(** Three files of one group, one commit a day, from Friday 2024-01-05
    to Sunday 2024-01-07. *)
Definition long_weekend_scanner : ReactProjectScanner.Scanner :=
  {| ReactProjectScanner.start_date := midnight 2024 1 5;
     ReactProjectScanner.end_date := midnight 2024 1 7;
     ReactProjectScanner.commits_per_day := 1;
     ReactProjectScanner.files :=
       [file_named "src/App.jsx"; file_named "src/Nav.jsx";
        file_named "src/Footer.jsx"] |}.

End MoreScenarios.

(** * Properties *)

(** ** Fallible maps *)

Section MapM.
Context {A B : Type} (f : A -> result B).

Lemma mapM_Forall2 (l : list A) (l' : list B) :
  mapM f l = Ok l' -> Forall2 (fun a b => f a = Ok b) l l'.
Proof.
  revert l'; induction l as [|a l IH]; intros l' H; simpl in H.
  - injection H as <-. constructor.
  - destruct (f a) as [b|e] eqn:Hfa; simpl in H; [|discriminate].
    destruct (mapM f l) as [bs|e] eqn:Hm; simpl in H; [|discriminate].
    injection H as <-. constructor; auto.
Qed.

Lemma Forall2_mapM (l : list A) (l' : list B) :
  Forall2 (fun a b => f a = Ok b) l l' -> mapM f l = Ok l'.
Proof.
  induction 1 as [|a b l l' Hab _ IH]; simpl; [reflexivity|].
  rewrite Hab; simpl. rewrite IH. reflexivity.
Qed.

End MapM.

(** ** The aggregation pipeline *)

Section Aggregation.
Import GitHubScraper ContributionAnalyzer.

Lemma hkey_eqb_eq (a b : hkey) : hkey_eqb a b = true <-> a = b.
Proof.
  destruct a, b; simpl; split; intros H;
    try discriminate; try reflexivity.
  - apply Z.eqb_eq in H. congruence.
  - injection H as ->. apply Z.eqb_refl.
  - apply String.eqb_eq in H. congruence.
  - injection H as ->. apply String.eqb_refl.
Qed.

Lemma hkey_eqb_refl (a : hkey) : hkey_eqb a a = true.
Proof. now apply hkey_eqb_eq. Qed.

Lemma total_increment (a : hkey) (c : counts) :
  total (increment a c) = total c + 1.
Proof.
  induction c as [|[k n] c IH]; simpl; [lia|].
  destruct (hkey_eqb k a); simpl; lia.
Qed.

Lemma count_of_increment_same (a : hkey) (c : counts) :
  count_of a (increment a c) = count_of a c + 1.
Proof.
  unfold count_of.
  induction c as [|[k n] c IH]; simpl.
  - now rewrite hkey_eqb_refl.
  - destruct (hkey_eqb k a) eqn:E; simpl; rewrite E; auto.
Qed.

Lemma count_of_increment_other (a b : hkey) (c : counts) :
  hkey_eqb b a = false -> count_of a (increment b c) = count_of a c.
Proof.
  intros Hba. unfold count_of.
  induction c as [|[k n] c IH]; simpl.
  - now rewrite Hba.
  - destruct (hkey_eqb k b) eqn:E; simpl.
    + apply hkey_eqb_eq in E; subst k. now rewrite Hba.
    + destruct (hkey_eqb k a); auto.
Qed.

Lemma count_of_tally (a : hkey) (authors : list hkey) (acc : counts) :
  count_of a (tally authors acc) = count_of a acc + occurrences a authors.
Proof.
  revert acc; induction authors as [|b rest IH]; intros acc; simpl.
  - unfold tally; simpl. lia.
  - unfold tally in *; simpl. rewrite IH.
    destruct (hkey_eqb b a) eqn:E.
    + apply hkey_eqb_eq in E; subst b.
      rewrite count_of_increment_same. lia.
    + rewrite count_of_increment_other by exact E. lia.
Qed.

Lemma total_tally (authors : list hkey) (acc : counts) :
  total (tally authors acc) = total acc + len authors.
Proof.
  revert acc; induction authors as [|b rest IH]; intros acc.
  - unfold tally, len; simpl. lia.
  - unfold tally in *; simpl. rewrite IH, total_increment.
    unfold len; simpl List.length. lia.
Qed.

Lemma occurrences_nonneg (a : hkey) (authors : list hkey) :
  0 <= occurrences a authors.
Proof.
  induction authors as [|b rest IH]; simpl; [lia|].
  destruct (hkey_eqb b a); lia.
Qed.

Lemma occurrences_app (a : hkey) (l1 l2 : list hkey) :
  occurrences a (l1 ++ l2) = occurrences a l1 + occurrences a l2.
Proof. induction l1 as [|b l1 IH]; simpl; [reflexivity|]. rewrite IH. lia. Qed.

Lemma occurrences_cons_same (a : hkey) (l : list hkey) :
  occurrences a (a :: l) = 1 + occurrences a l.
Proof.
  change (occurrences a (a :: l))
    with ((if hkey_eqb a a then 1 else 0) + occurrences a l).
  now rewrite hkey_eqb_refl.
Qed.

Lemma count_commits_tally (data : list json) (authors : list hkey) (acc : counts) :
  mapM author_of data = Ok authors ->
  count_commits data acc = Ok (tally authors acc).
Proof.
  intros H. apply mapM_Forall2 in H. revert acc.
  induction H as [|c a data authors Hca _ IH]; intros acc; simpl.
  - reflexivity.
  - rewrite Hca; simpl. apply IH.
Qed.

(** A listed commit whose detail fetch succeeds or fails with a client
    error contributes one record, and the record of a failed fetch is
    read as the author ["Unknown"]. *)
Lemma settled_fetch (r : Remote) (c : json) :
  fetch_succeeds r c || fetch_fails r c = true ->
  exists u record a,
    py_getitem c "url" = Ok u /\
    _fetch_commit_details r u = Ok record /\
    author_of record = Ok a /\
    (fetch_fails r c = true -> a = Unknown).
Proof.
  unfold fetch_succeeds, fetch_fails, detail_outcome.
  destruct (py_getitem c "url") as [[| | |u| |]|]; simpl; try discriminate.
  intros H.
  assert (Hd : _fetch_commit_details r (JStr u)
               = match url_endpoint r u with
                 | Responds status body =>
                     if 400 <=? status then Ok (JObj []) else Ok body
                 | ClientFailure => Ok (JObj [])
                 | TimesOut => Raise TimeoutError
                 end) by reflexivity.
  destruct (url_endpoint r u) as [status body| |]; simpl in *; try discriminate.
  - destruct (400 <=? status) eqn:Hs.
    + exists (JStr u), (JObj []), Unknown. repeat split; assumption.
    + rewrite orb_false_r in H. apply andb_true_iff in H as [_ H].
      destruct (author_of body) as [a|] eqn:Ha; [|discriminate].
      exists (JStr u), body, a. repeat split; auto. discriminate.
  - exists (JStr u), (JObj []), Unknown. repeat split; assumption.
Qed.

Lemma process_settled (r : Remote) (commits : list json) :
  forallb (fun c => fetch_succeeds r c || fetch_fails r c) commits = true ->
  exists authors,
    mapM author_of (_process_commits r (JArr commits)) = Ok authors /\
    Forall2 (fun c a => fetch_fails r c = true -> a = Unknown) commits authors.
Proof.
  intros H.
  assert (exists tasks enriched authors,
            mapM (fun commit => py_getitem commit "url") commits = Ok tasks /\
            mapM (_fetch_commit_details r) tasks = Ok enriched /\
            mapM author_of enriched = Ok authors /\
            Forall2 (fun c a => fetch_fails r c = true -> a = Unknown)
                    commits authors) as (tasks & enriched & authors & H1 & H2 & H3 & H4).
  { induction commits as [|c commits IH]; simpl in H.
    - exists [], [], []. repeat split; constructor.
    - apply andb_true_iff in H as [Hc Hrest].
      destruct (IH Hrest) as (tasks & enriched & authors & H1 & H2 & H3 & H4).
      destruct (settled_fetch r c Hc) as (u & record & a & Hu & Hd & Ha & Hf).
      exists (u :: tasks), (record :: enriched), (a :: authors).
      simpl. rewrite Hu; simpl. rewrite H1; simpl.
      rewrite Hd; simpl. rewrite H2; simpl.
      rewrite Ha; simpl. rewrite H3; simpl.
      repeat split. constructor; assumption. }
  exists authors. split; [|assumption].
  unfold _process_commits; simpl. rewrite H1; simpl. rewrite H2. exact H3.
Qed.

Lemma fetch_settled (r : Remote) (repo_url owner nm : string)
    (s e : datetime) (status : Z) (commits : list json) :
  _parse_repo_url repo_url = Ok (owner, nm) ->
  commits_endpoint r owner nm s e = Responds status (JArr commits) ->
  status < 400 ->
  forallb (fun c => fetch_succeeds r c || fetch_fails r c) commits = true ->
  exists data authors,
    fetch_contributions r repo_url s e = Ok data /\
    mapM author_of data = Ok authors /\
    Forall2 (fun c a => fetch_fails r c = true -> a = Unknown) commits authors.
Proof.
  intros Hp He Hs Hall.
  destruct (process_settled r commits Hall) as (authors & Ha & Hf).
  exists (_process_commits r (JArr commits)), authors.
  split; [|split; assumption].
  unfold fetch_contributions.
  rewrite Hp; simpl. rewrite He.
  replace (400 <=? status) with false by (symmetry; apply Z.leb_gt; lia).
  reflexivity.
Qed.

(** A record without author metadata is read as the author ["Unknown"]. *)
Lemma lacks_author_unknown (record : json) :
  lacks_author record = true -> author_of record = Ok Unknown.
Proof.
  intros Hl.
  unfold lacks_author in Hl. unfold author_of, py_get.
  destruct record as [| | | | |fields]; try discriminate; simpl.
  destruct (lookup "commit" fields) as [[| | | | |cfields]|];
    try discriminate; simpl; [|reflexivity].
  destruct (lookup "author" cfields) as [[| | | | |afields]|];
    try discriminate; simpl; [|reflexivity].
  destruct (lookup "name" afields); [discriminate|reflexivity].
Qed.

Lemma get_count_increment_same (a : hkey) (c : counts) :
  exists n, get_count a (increment a c) = Some n.
Proof.
  induction c as [|[k m] c IH]; simpl.
  - rewrite hkey_eqb_refl. now exists 1.
  - destruct (hkey_eqb k a) eqn:E; simpl; rewrite E; [now exists (m + 1)|exact IH].
Qed.

Lemma get_count_increment_keep (a b : hkey) (c : counts) (n : Z) :
  get_count a c = Some n -> exists n', get_count a (increment b c) = Some n'.
Proof.
  induction c as [|[k m] c IH]; simpl; [discriminate|]. intros H.
  destruct (hkey_eqb k b) eqn:Eb; simpl; destruct (hkey_eqb k a) eqn:Ea;
    eauto.
Qed.

Lemma get_count_tally_keep (a : hkey) (authors : list hkey) :
  forall (acc : counts) (n : Z),
    get_count a acc = Some n ->
    exists n', get_count a (tally authors acc) = Some n'.
Proof.
  induction authors as [|b rest IH]; intros acc n H.
  - now exists n.
  - destruct (get_count_increment_keep a b acc n H) as [n' Hn'].
    exact (IH (increment b acc) n' Hn').
Qed.

Lemma get_count_tally_in (a : hkey) (authors : list hkey) :
  forall acc : counts,
    In a authors -> exists n, get_count a (tally authors acc) = Some n.
Proof.
  induction authors as [|b rest IH]; intros acc Hin; [destruct Hin|].
  destruct Hin as [->|Hin].
  - destruct (get_count_increment_same a acc) as [n Hn].
    exact (get_count_tally_keep a rest (increment a acc) n Hn).
  - exact (IH (increment b acc) Hin).
Qed.

Lemma mapM_app_inv {A B : Type} (f : A -> result B) (l1 l2 : list A)
    (l' : list B) :
  mapM f (l1 ++ l2) = Ok l' ->
  exists l1' l2', l' = l1' ++ l2' /\ mapM f l1 = Ok l1' /\ mapM f l2 = Ok l2'.
Proof.
  intros H. apply mapM_Forall2 in H.
  apply Forall2_app_inv_l in H as (l1' & l2' & H1 & H2 & ->).
  exists l1', l2'. split; [reflexivity|].
  split; now apply Forall2_mapM.
Qed.

End Aggregation.

Section AggregationClaims.
Import GitHubScraper ContributionAnalyzer Scenarios.

(** The counting loop conserves counts.  When the listing succeeds and
    every detail fetch succeeds with a record whose author can be read,
    [fetch_contributions] returns one record per listed commit and the
    counting loop of [analyze_contributions], run over them, gives
    per-author counts whose sum is the size of the candidate set. *)
Lemma counting_conserves_counts (r : Remote) (repo_url owner nm : string)
    (s e : datetime) (status : Z) (commits : list json) :
  _parse_repo_url repo_url = Ok (owner, nm) ->
  commits_endpoint r owner nm s e = Responds status (JArr commits) ->
  status < 400 ->
  forallb (fetch_succeeds r) commits = true ->
  exists data contribs,
    fetch_contributions r repo_url s e = Ok data /\
    List.length data = List.length commits /\
    count_commits data [] = Ok contribs /\
    total contribs = len commits.
Proof.
  intros Hp He Hs Hall.
  destruct (fetch_settled r repo_url owner nm s e status commits Hp He Hs)
    as (data & authors & Hf & Ha & Hu).
  { rewrite forallb_forall in *. intros c Hc. now rewrite (Hall c Hc). }
  exists data, (tally authors []). split; [assumption|].
  pose proof (Forall2_length (mapM_Forall2 _ _ _ Ha)) as Hlen.
  split; [|split].
  - rewrite Hlen. symmetry. exact (Forall2_length Hu).
  - now apply count_commits_tally.
  - rewrite total_tally. unfold len, total; simpl.
    now rewrite (Forall2_length Hu).
Qed.

Lemma counting_conserves_counts_witness :
  exists data contribs,
    fetch_contributions (remote_with_authors ["x"; "y"; "x"]) repo monday saturday
      = Ok data /\
    List.length data = 3%nat /\
    count_commits data [] = Ok contribs /\
    total contribs = 3.
Proof.
  apply (counting_conserves_counts (remote_with_authors ["x"; "y"; "x"]) repo
           "octo" "demo" monday saturday 200
           [commit_ref "a"; commit_ref "b"; commit_ref "c"]).
  - reflexivity.
  - reflexivity.
  - lia.
  - reflexivity.
Defined.

(** C8, on the code.  The scenario of the specification: three commits
    by x, y, x, every detail fetch succeeding.  The call raises
    [TypeError] where the scraper is instantiated, before any request is
    made, and returns no counts.  The methods and the counting loop it
    would have run do conserve counts: the records fetched are counted as
    x:2, y:1, which sum to 3. *)
Theorem aggregation_raises_on_three_commits :
  forallb (fetch_succeeds (remote_with_authors ["x"; "y"; "x"]))
          [commit_ref "a"; commit_ref "b"; commit_ref "c"] = true /\
  analyze_contributions (remote_with_authors ["x"; "y"; "x"]) repo monday saturday
    = Raise TypeError /\
  (forall contribs,
     analyze_contributions (remote_with_authors ["x"; "y"; "x"]) repo
                           monday saturday <> Ok contribs) /\
  exists data,
    fetch_contributions (remote_with_authors ["x"; "y"; "x"]) repo monday saturday
      = Ok data /\
    count_commits data [] = Ok [(KStr "x", 2); (KStr "y", 1)] /\
    total [(KStr "x", 2); (KStr "y", 1)] = 3.
Proof.
  split; [reflexivity|]. split; [reflexivity|]. split.
  - intros contribs H. discriminate H.
  - exists (map detail_by ["x"; "y"; "x"]).
    split; [reflexivity|]. split; reflexivity.
Qed.

(** C2, on the code.  Five commits, the third answers 404 and the other
    four succeed.  The call raises [TypeError] and returns neither a
    total of 4 nor an error list.  The records that [fetch_contributions]
    returns are five, the failed one replaced by the empty record, and
    the counting loop counts all five: the per-author counts sum to 5,
    not 4, and the failed commit is counted under ["Unknown"]. *)
Lemma one_missing_is_still_counted :
  let commits := map commit_ref ["c1"; "c2"; "c3"; "c4"; "c5"] in
  map (fetch_fails remote_one_missing) commits
    = [false; false; true; false; false] /\
  map (fetch_succeeds remote_one_missing) commits
    = [true; true; false; true; true] /\
  analyze_contributions remote_one_missing repo monday saturday
    = Raise TypeError /\
  exists data contribs,
    fetch_contributions remote_one_missing repo monday saturday = Ok data /\
    data = [detail_by "x"; detail_by "y"; JObj []; detail_by "x"; detail_by "z"] /\
    count_commits data [] = Ok contribs /\
    contribs = [(KStr "x", 2); (KStr "y", 1); (Unknown, 1); (KStr "z", 1)] /\
    total contribs = 5 /\
    total contribs <> 4 /\
    count_of Unknown contribs = 1.
Proof.
  split; [reflexivity|]. split; [reflexivity|]. split; [reflexivity|].
  exists [detail_by "x"; detail_by "y"; JObj []; detail_by "x"; detail_by "z"],
         [(KStr "x", 2); (KStr "y", 1); (Unknown, 1); (KStr "z", 1)].
  split; [reflexivity|]. split; [reflexivity|]. split; [reflexivity|].
  split; [reflexivity|]. split; [reflexivity|]. split; [discriminate|reflexivity].
Qed.

(** C2, amended.  In a candidate set of five commits where one detail
    fetch fails with a client error and the other four succeed,
    [fetch_contributions] returns five records and the counting loop of
    [analyze_contributions], run over them, gives counts that sum to 5;
    the failed commit is among those counted under ["Unknown"]. *)
Theorem failed_fetch_counted_as_unknown (r : Remote)
    (repo_url owner nm : string) (s e : datetime) (status : Z)
    (pre post : list json) (c : json) :
  _parse_repo_url repo_url = Ok (owner, nm) ->
  commits_endpoint r owner nm s e = Responds status (JArr (pre ++ c :: post)) ->
  status < 400 ->
  List.length (pre ++ c :: post) = 5%nat ->
  fetch_fails r c = true ->
  forallb (fetch_succeeds r) (pre ++ post) = true ->
  exists data contribs,
    fetch_contributions r repo_url s e = Ok data /\
    List.length data = 5%nat /\
    count_commits data [] = Ok contribs /\
    total contribs = 5 /\
    1 <= count_of Unknown contribs.
Proof.
  intros Hp He Hs Hlen Hc Hall.
  destruct (fetch_settled r repo_url owner nm s e status _ Hp He Hs)
    as (data & authors & Hfetch & Ha & Hf).
  { rewrite forallb_app in *. simpl. rewrite Hc, orb_true_r.
    apply andb_true_iff in Hall as [H1 H2].
    rewrite forallb_forall in H1, H2.
    apply andb_true_iff; split; [|apply andb_true_iff; split; [reflexivity|]];
      apply forallb_forall; intros x Hx.
    - now rewrite (H1 x Hx).
    - now rewrite (H2 x Hx). }
  exists data, (tally authors []). split; [assumption|].
  pose proof (Forall2_length (mapM_Forall2 _ _ _ Ha)) as Hdata.
  split; [|split; [|split]].
  - rewrite Hdata, <- (Forall2_length Hf). exact Hlen.
  - now apply count_commits_tally.
  - rewrite total_tally. unfold len, total; simpl.
    rewrite <- (Forall2_length Hf), Hlen. reflexivity.
  - apply Forall2_app_inv_l in Hf as (a1 & a2 & Hf1 & Hf2 & ->).
    inversion Hf2 as [|c' a l l' Hca Hrest]; subst.
    rewrite (Hca Hc), count_of_tally, occurrences_app, occurrences_cons_same.
    pose proof (occurrences_nonneg Unknown a1).
    pose proof (occurrences_nonneg Unknown l').
    change (count_of Unknown []) with 0. lia.
Qed.

Lemma failed_fetch_counted_as_unknown_witness :
  exists data contribs,
    fetch_contributions remote_one_missing repo monday saturday = Ok data /\
    List.length data = 5%nat /\
    count_commits data [] = Ok contribs /\
    total contribs = 5 /\
    1 <= count_of Unknown contribs.
Proof.
  apply (failed_fetch_counted_as_unknown remote_one_missing repo "octo" "demo"
           monday saturday 200
           [commit_ref "c1"; commit_ref "c2"] [commit_ref "c4"; commit_ref "c5"]
           (commit_ref "c3")).
  - reflexivity.
  - reflexivity.
  - lia.
  - reflexivity.
  - reflexivity.
  - reflexivity.
Defined.

(** The record that stands for a failed detail fetch is the empty one,
    which has no author. *)
Lemma failed_fetch_gives_empty_record (r : Remote) (u : string) :
  listing_fails (url_endpoint r u) = true ->
  _fetch_commit_details r (JStr u) = Ok (JObj []) /\
  lacks_author (JObj []) = true.
Proof.
  intros Hf. split; [|reflexivity].
  unfold _fetch_commit_details.
  destruct (url_endpoint r u) as [status body| |]; simpl in Hf;
    try discriminate; [|reflexivity].
  now rewrite Hf.
Qed.

(** The counting loop of [analyze_contributions] does not skip a record
    without author metadata: in the counts it returns, every such record
    has added one to the entry ["Unknown"], which is therefore present,
    and one to the sum. *)
Theorem missing_author_in_returned_counts (pre post : list json)
    (record : json) (authors : list hkey) (acc : counts) :
  lacks_author record = true ->
  mapM author_of (pre ++ record :: post) = Ok authors ->
  exists contribs n,
    count_commits (pre ++ record :: post) acc = Ok contribs /\
    get_count Unknown contribs = Some n /\
    n = count_of Unknown acc + occurrences Unknown authors /\
    count_of Unknown acc + 1 <= n /\
    total contribs = total acc + len (pre ++ record :: post).
Proof.
  intros Hl Ha.
  pose proof (lacks_author_unknown record Hl) as Hu.
  pose proof (count_commits_tally _ _ acc Ha) as Hc.
  pose proof (Forall2_length (mapM_Forall2 _ _ _ Ha)) as Hlen.
  apply mapM_app_inv in Ha as (a1 & a2 & -> & H1 & H2).
  simpl in H2. rewrite Hu in H2; simpl in H2.
  destruct (mapM author_of post) as [a3|] eqn:H3; simpl in H2; [|discriminate].
  injection H2 as <-.
  assert (Hocc : 1 <= occurrences Unknown (a1 ++ Unknown :: a3)).
  { rewrite occurrences_app, occurrences_cons_same.
    pose proof (occurrences_nonneg Unknown a1).
    pose proof (occurrences_nonneg Unknown a3). lia. }
  destruct (get_count_tally_in Unknown (a1 ++ Unknown :: a3) acc) as [n Hg].
  { apply in_or_app. right. now left. }
  pose proof (count_of_tally Unknown (a1 ++ Unknown :: a3) acc) as Hcount.
  unfold count_of in Hcount at 1. rewrite Hg in Hcount.
  exists (tally (a1 ++ Unknown :: a3) acc), n.
  split; [exact Hc|]. split; [exact Hg|]. split; [exact Hcount|].
  split; [lia|].
  rewrite total_tally. unfold len. now rewrite Hlen.
Qed.

(** Two records by x, then the empty record of a failed detail fetch,
    then one more by x, counted from the empty dict. *)
Lemma missing_author_in_returned_counts_witness :
  exists contribs n,
    count_commits ([detail_by "x"; detail_by "x"] ++ JObj [] :: [detail_by "x"]) []
      = Ok contribs /\
    get_count Unknown contribs = Some n /\
    n = count_of Unknown [] + occurrences Unknown [KStr "x"; KStr "x"; Unknown; KStr "x"] /\
    count_of Unknown [] + 1 <= n /\
    total contribs
      = total [] + len ([detail_by "x"; detail_by "x"] ++ JObj [] :: [detail_by "x"]).
Proof.
  apply (missing_author_in_returned_counts
           [detail_by "x"; detail_by "x"] [detail_by "x"] (JObj [])
           [KStr "x"; KStr "x"; Unknown; KStr "x"] []).
  - reflexivity.
  - reflexivity.
Defined.

(** C10, on the code.  The five-commit scenario, whose third record is
    the empty one that stands for a failed detail fetch and has no
    author.  The call raises [TypeError] where the scraper is
    instantiated and returns no counts, so nothing is counted under
    ["Unknown"].  The counting loop, run over the records that
    [fetch_contributions] returns, does count that record under
    ["Unknown"] and in the sum. *)
Theorem unknown_author_call_raises :
  analyze_contributions remote_one_missing repo monday saturday
    = Raise TypeError /\
  (forall contribs,
     analyze_contributions remote_one_missing repo monday saturday
       <> Ok contribs) /\
  exists data contribs,
    fetch_contributions remote_one_missing repo monday saturday = Ok data /\
    nth_error data 2 = Some (JObj []) /\
    lacks_author (JObj []) = true /\
    count_commits data [] = Ok contribs /\
    get_count Unknown contribs = Some 1 /\
    total contribs = 5.
Proof.
  split; [reflexivity|]. split.
  - intros contribs H. discriminate H.
  - exists [detail_by "x"; detail_by "y"; JObj []; detail_by "x"; detail_by "z"],
           [(KStr "x", 2); (KStr "y", 1); (Unknown, 1); (KStr "z", 1)].
    split; [reflexivity|]. split; [reflexivity|]. split; [reflexivity|].
    split; [reflexivity|]. split; reflexivity.
Qed.

(** A listing that fails with a client error is logged by
    [fetch_contributions] and replaced by the empty list of records; any
    other exception leaves the method. *)
Theorem fetch_contributions_listing_failure (r : Remote)
    (repo_url owner nm : string) (s e : datetime) :
  _parse_repo_url repo_url = Ok (owner, nm) ->
  listing_errors (commits_endpoint r owner nm s e) = true ->
  fetch_contributions r repo_url s e
  = if listing_fails (commits_endpoint r owner nm s e) then Ok []
    else Raise TimeoutError.
Proof.
  intros Hp H. unfold fetch_contributions.
  rewrite Hp; simpl.
  destruct (commits_endpoint r owner nm s e) as [status body| |];
    simpl in *; try reflexivity.
  now rewrite H.
Qed.

Lemma fetch_contributions_listing_failure_witness :
  fetch_contributions remote_listing_down repo monday saturday = Ok [] /\
  fetch_contributions remote_listing_timeout repo monday saturday
    = Raise TimeoutError.
Proof.
  split.
  - apply (fetch_contributions_listing_failure remote_listing_down repo
             "octo" "demo"); reflexivity.
  - apply (fetch_contributions_listing_failure remote_listing_timeout repo
             "octo" "demo"); reflexivity.
Defined.



End AggregationClaims.

(** ** Date ranges *)

Section DateRanges.
Import DateHandler Scenarios.

(** The two weekend tests of the repository agree. *)
Lemma is_weekend_agree (d : datetime) :
  DateUtils.is_weekend d = DateHandler.is_weekend d.
Proof.
  unfold DateUtils.is_weekend, DateHandler.is_weekend, weekday. simpl existsb.
  pose proof (Z.mod_pos_bound (ordinal d + 6) 7) as Hb.
  destruct (5 <=? (ordinal d + 6) mod 7) eqn:E5,
           ((ordinal d + 6) mod 7 =? 5) eqn:E,
           ((ordinal d + 6) mod 7 =? 6) eqn:E'; simpl; try reflexivity;
    rewrite ?Z.leb_le, ?Z.leb_gt, ?Z.eqb_eq, ?Z.eqb_neq in *; lia.
Qed.

(** C9, on the code.  With a 30-day lookback and the clock at 2024-06-01,
    the valid pair (2024-01-01, 2024-02-01) is accepted and returned as
    (2024-05-02, 2024-02-01): the start is after the end. *)
Theorem validate_date_range_inverts_window :
  gtb (midnight 2024 1 1) (midnight 2024 2 1) = false /\
  validate_date_range thirty_days (midnight 2024 6 1)
                      (midnight 2024 1 1) (midnight 2024 2 1)
    = Ok (midnight 2024 5 2, midnight 2024 2 1) /\
  gtb (midnight 2024 5 2) (midnight 2024 2 1) = true.
Proof. split; [reflexivity|]. split; reflexivity. Qed.

(** The returned pair is ordered whenever the limits are and the window
    reaches into them. *)
Lemma validate_date_range_ordered (date_config : DateConfig)
    (now start_date end_date max_past max_future s' e' : datetime) :
  add_days now (- max_days_lookback date_config) = Ok max_past ->
  add_days now (max_days_ahead date_config) = Ok max_future ->
  gtb max_past max_future = false ->
  gtb max_past end_date = false ->
  gtb start_date max_future = false ->
  validate_date_range date_config now start_date end_date = Ok (s', e') ->
  gtb s' e' = false.
Proof.
  intros Hp Hf Hlim Hend Hstart. unfold validate_date_range.
  destruct (gtb start_date end_date) eqn:Hse; [discriminate|].
  rewrite Hp, Hf; simpl. intros H; injection H as <- <-.
  destruct (ltb start_date max_past), (gtb end_date max_future); assumption.
Qed.

End DateRanges.

(** ** Sorting the counts *)

Section TopContributors.
Import GitHubScraper ContributionAnalyzer Scenarios.

Lemma insert_desc_perm (x : hkey * Z) (l : list (hkey * Z)) :
  Permutation (insert_desc x l) (x :: l).
Proof.
  induction l as [|y l IH]; simpl; [reflexivity|].
  destruct (snd y <=? snd x); [reflexivity|].
  rewrite IH. apply perm_swap.
Qed.

Lemma sorted_desc_perm (l : list (hkey * Z)) : Permutation (sorted_desc l) l.
Proof.
  induction l as [|x l IH]; simpl; [reflexivity|].
  rewrite insert_desc_perm. now constructor.
Qed.

Lemma insert_desc_hd (x y : hkey * Z) (l : list (hkey * Z)) :
  HdRel desc y l -> desc y x -> HdRel desc y (insert_desc x l).
Proof.
  intros Hl Hx. destruct l as [|z l]; simpl; [now constructor|].
  destruct (snd z <=? snd x); constructor; auto.
  now inversion Hl.
Qed.

Lemma insert_desc_sorted (x : hkey * Z) (l : list (hkey * Z)) :
  Sorted desc l -> Sorted desc (insert_desc x l).
Proof.
  induction 1 as [|y l Hs IH Hhd]; simpl.
  - repeat constructor.
  - destruct (snd y <=? snd x) eqn:E.
    + apply Z.leb_le in E. repeat constructor; assumption.
    + apply Z.leb_gt in E. constructor; [assumption|].
      apply insert_desc_hd; [assumption|]. unfold desc. lia.
Qed.

Lemma sorted_desc_sorted (l : list (hkey * Z)) :
  StronglySorted desc (sorted_desc l).
Proof.
  apply Sorted_StronglySorted.
  - intros x y z Hxy Hyz. unfold desc in *. lia.
  - induction l as [|x l IH]; simpl; [constructor|].
    now apply insert_desc_sorted.
Qed.

(** Stability: among the items of any one count, sorting changes nothing. *)
Lemma insert_desc_filter (c : Z) (x : hkey * Z) (l : list (hkey * Z)) :
  filter (fun p => snd p =? c) (insert_desc x l)
  = filter (fun p => snd p =? c) (x :: l).
Proof.
  induction l as [|y l IH]; [reflexivity|].
  simpl insert_desc. destruct (snd y <=? snd x) eqn:E; [reflexivity|].
  apply Z.leb_gt in E.
  change (filter (fun p => snd p =? c) (y :: insert_desc x l))
    with (if snd y =? c then y :: filter (fun p => snd p =? c) (insert_desc x l)
          else filter (fun p => snd p =? c) (insert_desc x l)).
  rewrite IH. simpl.
  destruct (snd y =? c) eqn:Ey, (snd x =? c) eqn:Ex; try reflexivity.
  apply Z.eqb_eq in Ey, Ex. lia.
Qed.

Lemma sorted_desc_stable (c : Z) (l : list (hkey * Z)) :
  filter (fun p => snd p =? c) (sorted_desc l) = filter (fun p => snd p =? c) l.
Proof.
  induction l as [|x l IH]; [reflexivity|].
  simpl sorted_desc. rewrite insert_desc_filter. simpl. now rewrite IH.
Qed.

(** *** Relative order in lists *)

Lemma before_cons {A : Type} (a x y : A) (l : list A) :
  before x y l -> before x y (a :: l).
Proof.
  intros (l1 & l2 & l3 & ->). now exists (a :: l1), l2, l3.
Qed.

Lemma before_app_l {A : Type} (x y : A) (l l' : list A) :
  before x y l -> before x y (l ++ l').
Proof.
  intros (l1 & l2 & l3 & ->). exists l1, l2, (l3 ++ l').
  now rewrite <- !app_assoc, <- !app_comm_cons, <- app_assoc.
Qed.

Lemma before_map {A B : Type} (f : A -> B) (x y : A) (l : list A) :
  before x y l -> before (f x) (f y) (map f l).
Proof.
  intros (l1 & l2 & l3 & ->). exists (map f l1), (map f l2), (map f l3).
  now rewrite map_app, map_cons, map_app, map_cons.
Qed.

Lemma before_map_inv {A B : Type} (f : A -> B) (x y : B) (l : list A) :
  before x y (map f l) ->
  exists x' y', f x' = x /\ f y' = y /\ before x' y' l.
Proof.
  intros (l1 & l2 & l3 & H).
  apply map_eq_app in H as (m1 & m2 & -> & <- & H).
  apply map_eq_cons in H as (x' & m3 & -> & <- & H).
  apply map_eq_app in H as (m4 & m5 & -> & <- & H).
  apply map_eq_cons in H as (y' & m6 & -> & <- & <-).
  exists x', y'. repeat split. now exists m1, m4, m6.
Qed.

Lemma before_filter {A : Type} (p : A -> bool) (x y : A) (l : list A) :
  before x y l -> p x = true -> p y = true -> before x y (filter p l).
Proof.
  intros (l1 & l2 & l3 & ->) Hx Hy.
  exists (filter p l1), (filter p l2), (filter p l3).
  rewrite filter_app. simpl. rewrite Hx, filter_app. simpl. now rewrite Hy.
Qed.

Lemma before_filter_inv {A : Type} (p : A -> bool) (x y : A) (l : list A) :
  before x y (filter p l) -> before x y l.
Proof.
  induction l as [|a l IH]; intros (l1 & l2 & l3 & H).
  - destruct l1; discriminate.
  - simpl in H. destruct (p a).
    + destruct l1 as [|b l1]; simpl in H; injection H as Ha H.
      * subst a.
        assert (Hy : In y (filter p l)).
        { rewrite H. apply in_or_app. right. now left. }
        apply filter_In in Hy as [Hy _].
        apply in_split in Hy as (m1 & m2 & ->).
        now exists [], m1, m2.
      * apply before_cons, IH. now exists l1, l2, l3.
    + apply before_cons, IH. now exists l1, l2, l3.
Qed.

Lemma in_two_before {A : Type} (x y : A) (l : list A) :
  In x l -> In y l -> x <> y -> before x y l \/ before y x l.
Proof.
  intros Hx Hy Hne. apply in_split in Hx as (l1 & l2 & ->).
  apply in_app_or in Hy as [Hy|[Hy|Hy]].
  - right. apply in_split in Hy as (m1 & m2 & ->).
    exists m1, m2, l2. now rewrite <- app_assoc.
  - now elim Hne.
  - left. apply in_split in Hy as (m1 & m2 & ->). now exists l1, m1, m2.
Qed.

Lemma before_nodup_asym {A : Type} (a b : A) (l : list A) :
  NoDup l -> before a b l -> before b a l -> False.
Proof.
  intros Hnd (l1 & l2 & l3 & H1) (m1 & m2 & m3 & H2). subst l.
  revert m1 H2 Hnd. induction l1 as [|c l1 IH]; intros m1 H2 Hnd.
  - simpl in *. inversion Hnd as [|? ? Hnotin _]; subst. apply Hnotin.
    destruct m1 as [|c m1]; simpl in H2; injection H2 as Hhd Htl.
    + subst b. apply in_or_app. right. now left.
    + rewrite Htl. apply in_or_app. right. right.
      apply in_or_app. right. now left.
  - simpl in *. inversion Hnd as [|? ? Hnotin Hnd']; subst.
    destruct m1 as [|c' m1]; simpl in H2; injection H2 as Hhd Htl.
    + subst c. apply Hnotin. apply in_or_app. right. right.
      apply in_or_app. right. now left.
    + now apply (IH m1).
Qed.

Lemma strongly_sorted_app {A : Type} (R : A -> A -> Prop) (l1 l2 : list A) :
  StronglySorted R (l1 ++ l2) ->
  forall x y, In x l1 -> In y l2 -> R x y.
Proof.
  induction l1 as [|a l1 IH]; intros Hs x y Hx Hy; [contradiction|].
  simpl in Hs. apply StronglySorted_inv in Hs as [Hs Hall].
  destruct Hx as [<-|Hx].
  - rewrite Forall_forall in Hall. apply Hall, in_or_app. now right.
  - now apply IH.
Qed.

Lemma strongly_sorted_prefix {A : Type} (R : A -> A -> Prop) (l1 l2 : list A) :
  StronglySorted R (l1 ++ l2) -> StronglySorted R l1.
Proof.
  induction l1 as [|a l1 IH]; intros Hs; [constructor|].
  simpl in Hs. apply StronglySorted_inv in Hs as [Hs Hall].
  constructor; [now apply IH|].
  apply Forall_app in Hall. tauto.
Qed.

(** *** The keys of the counts are the authors in order of first
    appearance *)

Lemma hkey_eqb_sym (a b : hkey) : hkey_eqb a b = hkey_eqb b a.
Proof.
  destruct (hkey_eqb a b) eqn:E, (hkey_eqb b a) eqn:E'; auto.
  - apply hkey_eqb_eq in E; subst. now rewrite hkey_eqb_refl in E'.
  - apply hkey_eqb_eq in E'; subst. now rewrite hkey_eqb_refl in E.
Qed.

Lemma keys_increment (a : hkey) (c : counts) :
  map fst (increment a c)
  = if existsb (hkey_eqb a) (map fst c) then map fst c else map fst c ++ [a].
Proof.
  induction c as [|[k n] c IH]; simpl; [reflexivity|].
  rewrite (hkey_eqb_sym a k).
  destruct (hkey_eqb k a); simpl; [reflexivity|].
  rewrite IH. now destruct (existsb (hkey_eqb a) (map fst c)).
Qed.

Lemma keys_tally (authors : list hkey) (acc : counts) :
  map fst (tally authors acc) = first_seen (map fst acc) authors.
Proof.
  revert acc; induction authors as [|a rest IH]; intros acc; [reflexivity|].
  unfold tally in *; simpl. rewrite IH, keys_increment.
  now destruct (existsb (hkey_eqb a) (map fst acc)).
Qed.

Lemma existsb_hkey_false (a : hkey) (l : list hkey) :
  existsb (hkey_eqb a) l = false -> ~ In a l.
Proof.
  intros H Hin.
  assert (existsb (hkey_eqb a) l = true); [|congruence].
  apply existsb_exists. exists a. split; [assumption|apply hkey_eqb_refl].
Qed.

Lemma first_seen_nodup (seen authors : list hkey) :
  NoDup seen -> NoDup (first_seen seen authors).
Proof.
  revert seen; induction authors as [|a rest IH]; intros seen Hs; simpl; auto.
  destruct (existsb (hkey_eqb a) seen) eqn:E; auto.
  apply IH. apply NoDup_app; auto.
  - repeat constructor. auto.
  - intros x Hx [<-|[]]. revert Hx. now apply existsb_hkey_false.
Qed.

Lemma first_seen_incl (seen authors : list hkey) (a : hkey) :
  In a seen \/ In a authors -> In a (first_seen seen authors).
Proof.
  revert seen; induction authors as [|b rest IH]; intros seen H; simpl.
  - destruct H as [H|[]]. exact H.
  - destruct (existsb (hkey_eqb b) seen) eqn:E; apply IH.
    + destruct H as [H|[<-|H]]; auto.
      apply existsb_exists in E as (x & Hx & Hb).
      apply hkey_eqb_eq in Hb; subst. auto.
    + rewrite in_app_iff; simpl. destruct H as [H|[<-|H]]; auto.
Qed.

Lemma get_count_in (k : hkey) (n : Z) (c : counts) :
  NoDup (map fst c) -> In (k, n) c -> get_count k c = Some n.
Proof.
  induction c as [|[k' n'] c IH]; simpl; intros Hnd Hin; [contradiction|].
  inversion Hnd as [|? ? Hnotin Hnd']; subst.
  destruct Hin as [Heq|Hin].
  - injection Heq as -> ->. now rewrite hkey_eqb_refl.
  - destruct (hkey_eqb k' k) eqn:E; [|auto].
    apply hkey_eqb_eq in E; subst k'. exfalso. apply Hnotin.
    now apply (in_map fst) in Hin.
Qed.

Lemma tally_in_count (authors : list hkey) (k : hkey) (n : Z) :
  In (k, n) (tally authors []) -> n = occurrences k authors.
Proof.
  intros Hin.
  assert (Hg : get_count k (tally authors []) = Some n).
  { apply get_count_in; [|assumption].
    rewrite keys_tally. apply first_seen_nodup. constructor. }
  pose proof (count_of_tally k authors []) as Hc.
  unfold count_of in Hc at 1. rewrite Hg in Hc.
  change (count_of k []) with 0 in Hc. lia.
Qed.

Lemma strongly_sorted_top (l : list (hkey * Z)) :
  StronglySorted desc l ->
  StronglySorted (fun x y => contributions y <= contributions x)
    (map (fun nc => {| name := fst nc; contributions := snd nc |}) l).
Proof.
  induction 1 as [|x l Hs IH Hall]; simpl; constructor; [assumption|].
  apply Forall_map. revert Hall. apply Forall_impl. intros y Hy. exact Hy.
Qed.

(** C7, on the code.  The scenario of the specification: commits by a,
    b, c, a, b, a, b, every fetch succeeding, and the two top
    contributors asked for.  The function is given the repository and the
    window, not completed counts: it runs [analyze_contributions] itself,
    and with it the fetch.  That call raises [TypeError] where the
    scraper is instantiated, so no ranking is returned. *)
Lemma top_contributors_call_raises :
  (forall (r : Remote) (repo_url : string) (s e : datetime) (top_n : Z),
     get_top_contributors r repo_url s e top_n
     = rbind (analyze_contributions r repo_url s e)
             (fun contribs => Ok (top_of contribs top_n))) /\
  get_top_contributors (remote_with_authors ["a"; "b"; "c"; "a"; "b"; "a"; "b"])
                       repo monday saturday 2
    = Raise TypeError /\
  get_top_contributors (remote_with_authors ["a"; "b"; "c"; "a"; "b"; "a"; "b"])
                       repo monday saturday 2
    <> Ok [{| name := KStr "a"; contributions := 3 |};
           {| name := KStr "b"; contributions := 3 |}].
Proof.
  split; [reflexivity|]. split; [reflexivity|]. discriminate.
Qed.

(** C7, amended.  The ranking step of [get_top_contributors], run on the
    counts that the counting loop of [analyze_contributions] builds from
    fetched records whose authors can be read: for [top_n >= 0] the
    result holds the [top_n] entries of highest count, each with the
    number of commits of its author, in descending order of count, and
    two entries of equal count come in the order in which their authors
    first appear among the records. *)
Theorem top_contributors_order (data : list json) (authors : list hkey)
    (top_n : Z) :
  mapM author_of data = Ok authors ->
  0 <= top_n ->
  exists contribs,
    count_commits data [] = Ok contribs /\
    let top := top_of contribs top_n in
    List.length top
      = Nat.min (Z.to_nat top_n) (List.length (first_seen [] authors)) /\
    (forall x, In x top -> contributions x = occurrences (name x) authors) /\
    StronglySorted (fun x y => contributions y <= contributions x) top /\
    (forall x a,
       In x top -> In a authors -> ~ In a (map name top) ->
       occurrences a authors <= contributions x) /\
    (forall x y,
       In x top -> In y top -> x <> y ->
       contributions x = contributions y ->
       (before x y top <->
        before (name x) (name y) (first_seen [] authors))).
Proof.
  intros Hauth Hn.
  set (contribs := tally authors []).
  set (mk := fun nc : hkey * Z => {| name := fst nc; contributions := snd nc |}).
  set (k := Z.to_nat top_n).
  assert (Htop : top_of contribs top_n = map mk (firstn k (sorted_desc contribs))).
  { unfold top_of, slice_to.
    replace (0 <=? top_n) with true by (symmetry; now apply Z.leb_le).
    reflexivity. }
  assert (Hkeys : map fst contribs = first_seen [] authors)
    by apply (keys_tally authors []).
  pose proof (sorted_desc_perm contribs) as Hperm.
  pose proof (sorted_desc_sorted contribs) as Hsorted.
  pose proof (firstn_skipn k (sorted_desc contribs)) as Hsplit.
  assert (Hin : forall p, In p (firstn k (sorted_desc contribs)) -> In p contribs).
  { intros p Hp. apply (Permutation_in _ Hperm).
    rewrite <- Hsplit. apply in_or_app. now left. }
  exists contribs.
  split; [now apply count_commits_tally|].
  cbv zeta. rewrite Htop. split; [|split; [|split; [|split]]].
  - rewrite length_map, length_firstn, (Permutation_length Hperm).
    now rewrite <- Hkeys, length_map.
  - intros x Hx. apply in_map_iff in Hx as ([a n] & <- & Hp).
    simpl. apply tally_in_count. now apply Hin.
  - apply strongly_sorted_top.
    apply (strongly_sorted_prefix _ _ (skipn k (sorted_desc contribs))).
    now rewrite Hsplit.
  - intros x a Hx Ha Hnot.
    apply in_map_iff in Hx as (p & <- & Hp). simpl.
    assert (Hk : In a (map fst contribs)).
    { rewrite Hkeys. apply first_seen_incl. now right. }
    apply in_map_iff in Hk as ([a' n] & Hfst & Hq). simpl in Hfst; subst a'.
    rewrite <- (tally_in_count authors a n Hq).
    apply (Permutation_in _ (Permutation_sym Hperm)) in Hq.
    rewrite <- Hsplit in Hq. apply in_app_or in Hq as [Hq|Hq].
    + exfalso. apply Hnot. rewrite map_map. simpl.
      now apply (in_map fst) in Hq.
    + rewrite <- Hsplit in Hsorted.
      apply (strongly_sorted_app _ _ _ Hsorted p (a, n) Hp Hq).
  - assert (Hties : forall x y,
              before x y (map mk (firstn k (sorted_desc contribs))) ->
              contributions x = contributions y ->
              before (name x) (name y) (first_seen [] authors)).
    { intros x y Hb Heq.
      apply before_map_inv in Hb as (x' & y' & <- & <- & Hb). simpl in *.
      rewrite <- Hkeys. apply (before_map fst x' y').
      apply (before_filter_inv (fun p => snd p =? snd x')).
      rewrite <- sorted_desc_stable.
      apply before_filter.
      - rewrite <- Hsplit. now apply before_app_l.
      - apply Z.eqb_refl.
      - apply Z.eqb_eq. now symmetry. }
    intros x y Hx Hy Hne Heq. split; [intros Hb; now apply Hties|].
    intros Hseen. destruct (in_two_before x y _ Hx Hy Hne) as [Hb|Hb];
      [assumption|].
    exfalso. apply (before_nodup_asym (name x) (name y) (first_seen [] authors)).
    + apply first_seen_nodup. constructor.
    + assumption.
    + apply Hties; [assumption|now symmetry].
Qed.

Lemma top_contributors_order_witness :
  exists contribs,
    count_commits (map detail_by ["a"; "b"; "c"; "a"; "b"; "a"; "b"]) []
      = Ok contribs /\
    List.length (top_of contribs 2) = 2%nat /\
    StronglySorted (fun x y => contributions y <= contributions x)
                   (top_of contribs 2).
Proof.
  destruct (top_contributors_order
              (map detail_by ["a"; "b"; "c"; "a"; "b"; "a"; "b"])
              (map KStr ["a"; "b"; "c"; "a"; "b"; "a"; "b"]) 2)
    as (contribs & Hc & Hlen & _ & Hsorted & _).
  - reflexivity.
  - lia.
  - exists contribs. split; [exact Hc|]. split; [exact Hlen|exact Hsorted].
Defined.

(** The scenario of the specification, both ways round: counts a:3, b:3,
    c:1 and the two entries the ranking step puts first. *)
Example top_two_a_seen_first :
  fetch_contributions (remote_with_authors ["a"; "b"; "c"; "a"; "b"; "a"; "b"])
                      repo monday saturday
    = Ok (map detail_by ["a"; "b"; "c"; "a"; "b"; "a"; "b"]) /\
  count_commits (map detail_by ["a"; "b"; "c"; "a"; "b"; "a"; "b"]) []
    = Ok [(KStr "a", 3); (KStr "b", 3); (KStr "c", 1)] /\
  top_of [(KStr "a", 3); (KStr "b", 3); (KStr "c", 1)] 2
    = [{| name := KStr "a"; contributions := 3 |};
       {| name := KStr "b"; contributions := 3 |}].
Proof. split; [reflexivity|]. split; reflexivity. Qed.

Example top_two_b_seen_first :
  fetch_contributions (remote_with_authors ["c"; "b"; "a"; "a"; "b"; "a"; "b"])
                      repo monday saturday
    = Ok (map detail_by ["c"; "b"; "a"; "a"; "b"; "a"; "b"]) /\
  count_commits (map detail_by ["c"; "b"; "a"; "a"; "b"; "a"; "b"]) []
    = Ok [(KStr "c", 1); (KStr "b", 3); (KStr "a", 3)] /\
  top_of [(KStr "c", 1); (KStr "b", 3); (KStr "a", 3)] 2
    = [{| name := KStr "b"; contributions := 3 |};
       {| name := KStr "a"; contributions := 3 |}].
Proof. split; [reflexivity|]. split; reflexivity. Qed.

End TopContributors.

(** ** Drawing from the generator *)

Section Drawing.
Import Random.

Lemma ensures_ret {A : Type} (a : A) (P : A -> Prop) : P a -> ensures (ret a) P.
Proof. intros H g. now exists a, g. Qed.

Lemma ensures_bind {A B : Type} (m : M A) (k : A -> M B)
    (P : A -> Prop) (Q : B -> Prop) :
  ensures m P -> (forall a, P a -> ensures (k a) Q) -> ensures (bind m k) Q.
Proof.
  intros Hm Hk g. destruct (Hm g) as (a & g' & Hg & Ha).
  destruct (Hk a Ha g') as (b & g'' & Hg' & Hb).
  exists b, g''. unfold bind. now rewrite Hg.
Qed.

Lemma ensures_randint (a b : Z) :
  a <= b -> ensures (randint a b) (fun x => a <= x <= b).
Proof.
  intros Hab g. unfold randint.
  replace (b <? a) with false by (symmetry; apply Z.ltb_ge; lia).
  exists (a + draws g (pos g) mod (b - a + 1)), (advance g).
  split; [reflexivity|].
  pose proof (Z.mod_pos_bound (draws g (pos g)) (b - a + 1)). lia.
Qed.

Lemma ensures_choice {A : Type} (seq : list A) :
  seq <> [] -> ensures (choice seq) (fun x => In x seq).
Proof.
  intros Hne g. destruct seq as [|d rest]; [contradiction|].
  exists (nth (Z.to_nat (draws g (pos g) mod len (d :: rest))) (d :: rest) d),
         (advance g).
  split; [reflexivity|]. apply nth_In.
  pose proof (Z.mod_pos_bound (draws g (pos g)) (len (d :: rest))) as Hb.
  unfold len in *. simpl List.length in *. lia.
Qed.

Lemma agree_advance (g1 g2 : Rng) : agree g1 g2 -> agree (advance g1) (advance g2).
Proof.
  intros H i. unfold advance; simpl.
  specialize (H (S i)). now rewrite <- !plus_n_Sm in H.
Qed.

Lemma agree_now (g1 g2 : Rng) :
  agree g1 g2 -> draws g1 (pos g1) = draws g2 (pos g2).
Proof. intros H. specialize (H 0%nat). now rewrite <- !plus_n_O in H. Qed.

Lemma respects_ret {A : Type} (a : A) : respects (ret a).
Proof. intros g1 g2 H. now split. Qed.

Lemma respects_raise {A : Type} (e : exn) : respects (@raise A e).
Proof. intros g1 g2 H. now split. Qed.

Lemma respects_lift {A : Type} (r : result A) : respects (lift r).
Proof. intros g1 g2 H. now split. Qed.

Lemma respects_bind {A B : Type} (m : M A) (k : A -> M B) :
  respects m -> (forall a, respects (k a)) -> respects (bind m k).
Proof.
  intros Hm Hk g1 g2 H. unfold bind.
  destruct (Hm g1 g2 H) as [Hr Hg].
  destruct (m g1) as [r1 h1], (m g2) as [r2 h2]; simpl in *. subst r2.
  destruct r1 as [a|e]; [now apply Hk|now split].
Qed.

Lemma respects_randbelow (n : Z) : respects (randbelow n).
Proof.
  intros g1 g2 H. unfold randbelow; simpl.
  rewrite (agree_now g1 g2 H). split; [reflexivity|now apply agree_advance].
Qed.

Lemma respects_randint (a b : Z) : respects (randint a b).
Proof.
  unfold randint. destruct (b <? a); [apply respects_raise|].
  apply respects_bind; [apply respects_randbelow|intros x; apply respects_ret].
Qed.

Lemma respects_choice {A : Type} (seq : list A) : respects (choice seq).
Proof.
  destruct seq as [|d rest]; [apply respects_raise|].
  apply respects_bind; [apply respects_randbelow|intros x; apply respects_ret].
Qed.

End Drawing.

(** ** The scheduler *)

Section Scheduler.
Import Random ReactProjectScanner Scenarios.

Lemma ensures_weaken {A : Type} (m : M A) (P Q : A -> Prop) :
  ensures m P -> (forall a, P a -> Q a) -> ensures m Q.
Proof.
  intros Hm HPQ g. destruct (Hm g) as (a & g' & Hg & Ha).
  exists a, g'. auto.
Qed.

Lemma any_files_available (type_groups : groups) :
  any_files type_groups = true ->
  filter (fun kv => nonempty (snd kv)) type_groups <> [].
Proof.
  unfold any_files. intros H Hf.
  apply existsb_exists in H as (x & Hx & Hp).
  assert (Hin : In x (filter (fun kv => nonempty (snd kv)) type_groups))
    by (apply filter_In; auto).
  rewrite Hf in Hin. contradiction.
Qed.

Lemma replace_working_hours (d : datetime) (h m : Z) :
  9 <= h <= 18 -> 0 <= m <= 59 ->
  replace d h m = Ok (mk_datetime (ordinal d) h m (second d) (microsecond d)).
Proof.
  intros Hh Hm. unfold replace.
  assert (H : (0 <=? h) && (h <=? 23) && (0 <=? m) && (m <=? 59) = true)
    by (rewrite !andb_true_iff, !Z.leb_le; lia).
  now rewrite H.
Qed.

Lemma firstn_nonempty {A : Type} (k : Z) (l : list A) :
  1 <= k -> nonempty l = true -> firstn (Z.to_nat k) l <> [].
Proof.
  intros Hk Hl. destruct l as [|a l]; [discriminate|].
  destruct (Z.to_nat k) eqn:E; [lia|discriminate].
Qed.

(** The commits of one day: the loop never raises, adds at most [n]
    commits, all of that day, and at least one when files remain. *)
Lemma day_loop_spec (n : nat) (current_date : datetime) :
  forall (type_groups : groups) (commits : list commit),
    ensures (day_loop n current_date type_groups commits)
      (fun r => exists extra,
         snd r = commits ++ extra /\
         Forall (on_day current_date) extra /\
         (List.length extra <= n)%nat /\
         (any_files type_groups = true -> (0 < n)%nat -> extra <> [])).
Proof.
  induction n as [|n IH]; intros type_groups commits.
  - apply ensures_ret. exists []. rewrite app_nil_r.
    repeat split; auto. intros _ H. inversion H.
  - simpl day_loop. destruct (any_files type_groups) eqn:Hany; simpl negb; cbv iota.
    2:{ apply ensures_ret. exists []. rewrite app_nil_r.
        repeat split; auto with arith. discriminate. }
    destruct (filter (fun kv => nonempty (snd kv)) type_groups)
      as [|p available] eqn:Hav.
    { exfalso. now apply (any_files_available type_groups Hany). }
    simpl negb; cbv iota.
    apply (ensures_bind _ _ (fun x => In x (p :: available)));
      [apply ensures_choice; discriminate|].
    intros chosen Hin. rewrite <- Hav in Hin.
    apply filter_In in Hin as [_ Hne].
    assert (Hlen : 1 <= len (snd chosen)).
    { destruct (snd chosen); [discriminate|]. unfold len; simpl List.length. lia. }
    apply (ensures_bind _ _ (fun x => 1 <= x <= Z.min 5 (len (snd chosen))));
      [apply ensures_randint; lia|].
    intros files_count Hfc.
    apply (ensures_bind _ _ (fun x => 9 <= x <= 18));
      [apply ensures_randint; lia|].
    intros h Hh.
    apply (ensures_bind _ _ (fun x => 0 <= x <= 59));
      [apply ensures_randint; lia|].
    intros m Hm.
    rewrite (replace_working_hours current_date h m Hh Hm).
    apply (ensures_bind _ _ (fun t =>
             t = mk_datetime (ordinal current_date) h m
                             (second current_date) (microsecond current_date)));
      [now apply ensures_ret|].
    intros commit_time ->.
    eapply ensures_weaken; [apply IH|].
    intros r (extra & Hr & Hall & Hle & _).
    eexists (_ :: extra). rewrite Hr, <- app_assoc. simpl.
    split; [reflexivity|]. split; [|split].
    + constructor; [|assumption].
      unfold on_day; simpl. repeat split; try lia.
      apply firstn_nonempty; [lia|assumption].
    + simpl. lia.
    + discriminate.
Qed.

Lemma respects_day_loop (n : nat) (current_date : datetime) :
  forall (type_groups : groups) (commits : list commit),
    respects (day_loop n current_date type_groups commits).
Proof.
  induction n as [|n IH]; intros type_groups commits; simpl day_loop.
  - apply respects_ret.
  - destruct (negb (any_files type_groups)); [apply respects_ret|].
    destruct (negb (nonempty (filter (fun kv => nonempty (snd kv)) type_groups)));
      [apply respects_ret|].
    apply respects_bind; [apply respects_choice|intros chosen].
    apply respects_bind; [apply respects_randint|intros files_count].
    apply respects_bind; [apply respects_randint|intros h].
    apply respects_bind; [apply respects_randint|intros m].
    apply respects_bind; [apply respects_lift|intros commit_time].
    apply IH.
Qed.

(** *** Datetime order *)

Lemma leb_ordinal (a b : datetime) : leb a b = true -> ordinal a <= ordinal b.
Proof.
  unfold leb, compare. destruct (ordinal a ?= ordinal b) eqn:E.
  - apply Z.compare_eq in E. lia.
  - rewrite Z.compare_lt_iff in E. lia.
  - discriminate.
Qed.

Lemma add_days_ok (d next : datetime) (n : Z) :
  add_days d n = Ok next ->
  ordinal next = ordinal d + n /\ 1 <= ordinal next <= MAXORDINAL.
Proof.
  unfold add_days.
  destruct ((1 <=? ordinal d + n) && (ordinal d + n <=? MAXORDINAL)) eqn:E;
    [|discriminate].
  intros H; injection H as <-. simpl.
  apply andb_true_iff in E as [E1 E2]. apply Z.leb_le in E1, E2. lia.
Qed.

Lemma add_days_in_range (d : datetime) (n : Z) :
  1 <= ordinal d + n <= MAXORDINAL -> exists next, add_days d n = Ok next.
Proof.
  intros H. unfold add_days.
  assert (E : (1 <=? ordinal d + n) && (ordinal d + n <=? MAXORDINAL) = true)
    by (rewrite andb_true_iff, !Z.leb_le; lia).
  rewrite E. eauto.
Qed.

Lemma same_day_sorted (o : Z) (l : list commit) :
  Forall (fun c => ordinal (fst c) = o) l -> StronglySorted day_order l.
Proof.
  induction 1 as [|c l Hc Hl IH]; constructor; [assumption|].
  revert Hl. apply Forall_impl. intros c' Hc'. unfold day_order. lia.
Qed.

Lemma strongly_sorted_app_intro {A : Type} (R : A -> A -> Prop) (l1 l2 : list A) :
  StronglySorted R l1 -> StronglySorted R l2 ->
  (forall x y, In x l1 -> In y l2 -> R x y) ->
  StronglySorted R (l1 ++ l2).
Proof.
  induction 1 as [|a l1 Hs IH Hall]; intros H2 Hc; simpl; [assumption|].
  constructor.
  - apply IH; [assumption|]. intros x y Hx Hy. apply Hc; [now right|assumption].
  - apply Forall_app. split; [assumption|].
    apply Forall_forall. intros y Hy. apply Hc; [now left|assumption].
Qed.

Lemma randint_inv (a b x : Z) (g g' : Rng) :
  randint a b g = (Ok x, g') -> a <= x <= b.
Proof.
  unfold randint. destruct (b <? a) eqn:E; [discriminate|].
  apply Z.ltb_ge in E. unfold bind, randbelow, ret.
  intros H; injection H as <- _.
  pose proof (Z.mod_pos_bound (draws g (pos g)) (b - a + 1)). lia.
Qed.

(** One day of the schedule: the number of commits is drawn, then the
    commits. *)
Lemma day_step_inv (sc : Scanner) (current_date : datetime)
    (type_groups type_groups' : groups) (commits commits' : list commit)
    (g g' : Rng) :
  bind (randint 1 (commits_per_day sc))
       (fun daily_commits =>
          day_loop (Z.to_nat daily_commits) current_date type_groups commits) g
    = (Ok (type_groups', commits'), g') ->
  exists extra,
    commits' = commits ++ extra /\
    Forall (on_day current_date) extra /\
    (any_files type_groups = true -> extra <> []).
Proof.
  unfold bind.
  destruct (randint 1 (commits_per_day sc) g) as [[d|e] g0] eqn:Hd;
    [|discriminate].
  apply randint_inv in Hd.
  destruct (day_loop_spec (Z.to_nat d) current_date type_groups commits g0)
    as (r & g1 & Hr & extra & Hsnd & Hall & _ & Hne).
  rewrite Hr. intros H; injection H as H _. subst r. simpl in Hsnd.
  exists extra. repeat split; auto. intros Hany. apply Hne; [assumption|lia].
Qed.

Lemma day_step_ok (sc : Scanner) (current_date : datetime)
    (type_groups : groups) (commits : list commit) (g : Rng) :
  1 <= commits_per_day sc ->
  exists r g',
    bind (randint 1 (commits_per_day sc))
         (fun daily_commits =>
            day_loop (Z.to_nat daily_commits) current_date type_groups commits) g
      = (Ok r, g').
Proof.
  intros Hc.
  assert (H : ensures
                (bind (randint 1 (commits_per_day sc))
                   (fun daily_commits =>
                      day_loop (Z.to_nat daily_commits) current_date
                               type_groups commits))
                (fun _ => True)).
  { apply (ensures_bind _ _ (fun x => 1 <= x <= commits_per_day sc));
      [now apply ensures_randint|].
    intros d _. eapply ensures_weaken; [apply day_loop_spec|auto]. }
  destruct (H g) as (r & g' & Hr & _). eauto.
Qed.

Lemma respects_day_step (sc : Scanner) (current_date : datetime)
    (type_groups : groups) (commits : list commit) :
  respects
    (bind (randint 1 (commits_per_day sc))
       (fun daily_commits =>
          day_loop (Z.to_nat daily_commits) current_date type_groups commits)).
Proof.
  apply respects_bind; [apply respects_randint|].
  intros d. apply respects_day_loop.
Qed.

(** The loop over the days ends within the iterations allowed. *)
Lemma date_loop_total (sc : Scanner) (fuel : nat) :
  forall (current_date : datetime) (type_groups : groups)
         (commits : list commit) (g : Rng),
    (Z.to_nat (ordinal (end_date sc) - ordinal current_date + 1) < fuel)%nat ->
    exists r, date_loop fuel sc current_date type_groups commits g = Some r.
Proof.
  induction fuel as [|fuel IH]; intros cur type_groups commits g Hfuel;
    [inversion Hfuel|].
  simpl date_loop. destruct (leb cur (end_date sc)) eqn:Hle; [|eauto].
  apply leb_ordinal in Hle.
  match goal with
  | |- context [match ?step with _ => _ end] =>
      destruct step as [[[groups' commits']|e] g']
  end; [|eauto].
  destruct (add_days cur 1) as [next|e] eqn:Hnext; [|eauto].
  apply add_days_ok in Hnext as [Hnext _].
  apply IH. rewrite Hnext. lia.
Qed.

(** What holds of every schedule the loop returns. *)
Lemma date_loop_sound (sc : Scanner) (fuel : nat) :
  forall (current_date : datetime) (type_groups : groups)
         (commits cs : list commit) (g g' : Rng),
    date_loop fuel sc current_date type_groups commits g = Some (Ok cs, g') ->
    exists extra,
      cs = commits ++ extra /\
      Forall (within current_date (end_date sc)) extra /\
      StronglySorted day_order extra /\
      (leb current_date (end_date sc) = true ->
       any_files type_groups = true ->
       exists c rest, extra = c :: rest /\ on_day current_date c).
Proof.
  induction fuel as [|fuel IH]; intros cur type_groups commits cs g g' H;
    [discriminate|].
  simpl date_loop in H. destruct (leb cur (end_date sc)) eqn:Hle.
  2:{ injection H as <- _. exists []. rewrite app_nil_r.
      repeat split; try constructor. discriminate. }
  apply leb_ordinal in Hle.
  match type of H with
  | context [match ?step with _ => _ end] =>
      destruct step as [[[groups' commits']|e] g1] eqn:Hstep
  end; [|discriminate].
  apply day_step_inv in Hstep as (today & -> & Htoday & Hne).
  destruct (add_days cur 1) as [next|e] eqn:Hnext; [|discriminate].
  apply add_days_ok in Hnext as [Hnext _].
  apply IH in H as (later & -> & Hlater & Hsorted & _).
  exists (today ++ later). rewrite app_assoc.
  split; [reflexivity|]. split; [|split].
  - apply Forall_app. split.
    + revert Htoday. apply Forall_impl.
      intros c (Ho & Hh & Hm & _). unfold within. lia.
    + revert Hlater. apply Forall_impl.
      intros c (Ho & Hh & Hm). unfold within. lia.
  - apply strongly_sorted_app_intro; [|assumption|].
    + apply (same_day_sorted (ordinal cur)).
      revert Htoday. apply Forall_impl. now intros c (Ho & _).
    + intros x y Hx Hy. rewrite Forall_forall in Htoday, Hlater.
      destruct (Htoday x Hx) as (Ho & _).
      destruct (Hlater y Hy) as (Ho' & _). unfold day_order. lia.
  - intros _ Hany. destruct today as [|c rest]; [now elim (Hne Hany)|].
    exists c, (rest ++ later). split; [reflexivity|].
    now inversion Htoday.
Qed.

(** With at least one commit allowed per day and a window that ends
    before the last representable day, nothing raises. *)
Lemma date_loop_no_raise (sc : Scanner) (fuel : nat) :
  1 <= commits_per_day sc ->
  ordinal (end_date sc) < MAXORDINAL ->
  forall (current_date : datetime) (type_groups : groups)
         (commits : list commit) (g g' : Rng) (r : result (list commit)),
    1 <= ordinal current_date ->
    date_loop fuel sc current_date type_groups commits g = Some (r, g') ->
    exists cs, r = Ok cs.
Proof.
  intros Hcpd Hend.
  induction fuel as [|fuel IH]; intros cur type_groups commits g g' r Hcur H;
    [discriminate|].
  simpl date_loop in H. destruct (leb cur (end_date sc)) eqn:Hle.
  2:{ injection H as <- _. eauto. }
  apply leb_ordinal in Hle.
  destruct (day_step_ok sc cur type_groups commits g Hcpd)
    as ([groups' commits'] & g1 & Hstep).
  unfold bind in Hstep, H. simpl in H. rewrite Hstep in H.
  destruct (add_days_in_range cur 1) as [next Hnext]; [lia|].
  rewrite Hnext in H. apply add_days_ok in Hnext as [Hnext _].
  apply IH in H; [assumption|lia].
Qed.

(** The loop depends on the generator only through the draws to come. *)
Lemma date_loop_agree (sc : Scanner) (fuel : nat) :
  forall (current_date : datetime) (type_groups : groups)
         (commits : list commit) (g1 g2 : Rng),
    agree g1 g2 ->
    option_map fst (date_loop fuel sc current_date type_groups commits g1)
    = option_map fst (date_loop fuel sc current_date type_groups commits g2) /\
    (forall r1 h1 r2 h2,
       date_loop fuel sc current_date type_groups commits g1 = Some (r1, h1) ->
       date_loop fuel sc current_date type_groups commits g2 = Some (r2, h2) ->
       agree h1 h2).
Proof.
  induction fuel as [|fuel IH]; intros cur type_groups commits g1 g2 Hg;
    [split; [reflexivity|discriminate]|].
  simpl date_loop. destruct (leb cur (end_date sc)).
  2:{ split; [reflexivity|]. intros r1 h1 r2 h2 H1 H2.
      injection H1 as _ <-. injection H2 as _ <-. assumption. }
  destruct (respects_day_step sc cur type_groups commits g1 g2 Hg) as [Hr Hh].
  unfold bind in Hr, Hh |- *.
  match goal with
  | |- context [match ?step1 with _ => _ end] =>
      match goal with
      | Hr : fst step1 = fst ?step2 |- _ =>
          destruct step1 as [r1 h1]; destruct step2 as [r2 h2]
      end
  end.
  simpl in Hr, Hh. subst r2.
  destruct r1 as [[groups' commits']|e].
  - destruct (add_days cur 1) as [next|e].
    + now apply IH.
    + split; [reflexivity|]. intros ? ? ? ? H1 H2.
      injection H1 as _ <-. injection H2 as _ <-. assumption.
  - split; [reflexivity|]. intros ? ? ? ? H1 H2.
    injection H1 as _ <-. injection H2 as _ <-. assumption.
Qed.

Lemma any_files_setdefault (key : group_key) (file : FileInfo)
    (type_groups : groups) :
  any_files (setdefault_append key file type_groups) = true.
Proof.
  unfold any_files.
  induction type_groups as [|[k v] rest IH]; simpl; [reflexivity|].
  destruct (key_eqb k key); simpl.
  - destruct v; reflexivity.
  - rewrite IH. apply orb_true_r.
Qed.

Lemma any_files_grouped (fs : list FileInfo) :
  nonempty fs = true -> any_files (group_by_type fs) = true.
Proof.
  intros Hne. destruct (exists_last (l := fs)) as (init & last & ->).
  { destruct fs; [discriminate|discriminate]. }
  unfold group_by_type. rewrite fold_left_app. simpl.
  apply any_files_setdefault.
Qed.

(** [prepare_commits] always returns or raises: the iterations allowed
    are enough. *)
Lemma prepare_commits_terminates (sc : Scanner) (g : Rng) :
  exists r, prepare_commits sc g = Some r.
Proof.
  unfold prepare_commits. destruct (negb (nonempty (files sc))); [eauto|].
  apply date_loop_total. unfold enough_fuel. lia.
Qed.

End Scheduler.

Section SchedulerClaims.
Import Random ReactProjectScanner Scenarios.

(** C1, on the code.  A window that is the single Saturday 2024-01-06:
    the scheduler emits a commit dated on that Saturday. *)
Lemma saturday_gets_a_commit :
  exists c g',
    prepare_commits saturday_scanner (of_draws []) = Some (Ok [c], g') /\
    fst c = mk_datetime (ymd2ord 2024 1 6) 9 0 0 0 /\
    weekday (fst c) = 5 /\
    DateUtils.is_weekend (fst c) = true.
Proof.
  eexists. eexists. split; [reflexivity|]. repeat split.
Qed.

(** A window that starts on a Saturday or Sunday, with files to commit:
    the call returns a schedule, and the first commit of it is dated on
    that weekend day. *)
Theorem weekend_start_is_scheduled (sc : Scanner) (g : Rng) :
  nonempty (files sc) = true ->
  leb (start_date sc) (end_date sc) = true ->
  1 <= commits_per_day sc ->
  1 <= ordinal (start_date sc) ->
  ordinal (end_date sc) < MAXORDINAL ->
  DateUtils.is_weekend (start_date sc) = true ->
  exists c cs g',
    prepare_commits sc g = Some (Ok (c :: cs), g') /\
    on_day (start_date sc) c /\
    DateUtils.is_weekend (fst c) = true.
Proof.
  intros Hfiles Hle Hcpd Hstart Hend Hweekend.
  destruct (prepare_commits_terminates sc g) as [[r g'] Hrun].
  pose proof Hrun as Hrun'.
  unfold prepare_commits in Hrun'. rewrite Hfiles in Hrun'. cbn [negb] in Hrun'.
  destruct (date_loop_no_raise sc _ Hcpd Hend _ _ _ _ _ _ Hstart Hrun')
    as [cs ->].
  apply date_loop_sound in Hrun' as (extra & -> & _ & _ & Hfirst).
  destruct (Hfirst Hle (any_files_grouped _ Hfiles)) as (c & rest & -> & Hc).
  exists c, rest, g'. split; [exact Hrun|]. split; [exact Hc|].
  destruct Hc as (Ho & _).
  unfold DateUtils.is_weekend, weekday in *. now rewrite Ho.
Qed.

Lemma weekend_start_is_scheduled_witness :
  exists c cs g',
    prepare_commits saturday_scanner (of_draws [3; 1; 4; 1; 5])
      = Some (Ok (c :: cs), g') /\
    on_day saturday c /\
    DateUtils.is_weekend (fst c) = true.
Proof.
  apply (weekend_start_is_scheduled saturday_scanner (of_draws [3; 1; 4; 1; 5])).
  - reflexivity.
  - reflexivity.
  - simpl. lia.
  - vm_compute. discriminate.
  - vm_compute. reflexivity.
  - reflexivity.
Defined.

(** C4, on the code.  Monday 2024-01-01, two files, two commits drawn
    for the day: both are stamped 09:00 of that day. *)
Lemma same_minute_twice :
  exists c1 c2 g',
    prepare_commits monday_scanner (of_draws [1]) = Some (Ok [c1; c2], g') /\
    fst c1 = mk_datetime (ymd2ord 2024 1 1) 9 0 0 0 /\
    fst c2 = fst c1.
Proof.
  eexists. eexists. eexists. split; [reflexivity|]. split; reflexivity.
Qed.

(** The same day with other draws: 18:30 comes before 09:05. *)
Example later_commit_earlier_time :
  exists c1 c2 g',
    prepare_commits monday_scanner (of_draws [1; 0; 0; 9; 30; 0; 0; 0; 5])
      = Some (Ok [c1; c2], g') /\
    (hour (fst c1), minute (fst c1)) = (18, 30) /\
    (hour (fst c2), minute (fst c2)) = (9, 5).
Proof.
  eexists. eexists. eexists. split; [reflexivity|]. split; reflexivity.
Qed.

(** C4, amended.  In every schedule the commits come in calendar order
    of their days, each dated within the window at a time of day in
    09:00..18:59. *)
Theorem schedule_days_in_order (sc : Scanner) (g g' : Rng) (cs : list commit) :
  prepare_commits sc g = Some (Ok cs, g') ->
  Forall (within (start_date sc) (end_date sc)) cs /\
  StronglySorted day_order cs.
Proof.
  unfold prepare_commits.
  destruct (negb (nonempty (files sc))); [discriminate|].
  intros H. apply date_loop_sound in H as (extra & -> & Hall & Hsorted & _).
  now split.
Qed.

Lemma schedule_days_in_order_witness :
  exists cs g',
    prepare_commits monday_scanner (of_draws [1]) = Some (Ok cs, g') /\
    Forall (within monday monday) cs /\
    StronglySorted day_order cs.
Proof.
  eexists. eexists. split; [reflexivity|].
  apply (schedule_days_in_order monday_scanner (of_draws [1])
           {| draws := fun i => nth i [1] 0; pos := 9 |}).
  reflexivity.
Defined.

(** C5, on the code.  Two calls in a row on the same scanner: the second
    draws from where the first left the generator and stamps 10:00 where
    the first stamped 09:00. *)
Lemma second_call_differs :
  exists c1 c2,
    prepare_commits_twice saturday_scanner
                          (of_draws [0; 0; 0; 0; 0; 0; 0; 0; 1; 0])
      = (Some (Ok [c1]), Some (Ok [c2])) /\
    hour (fst c1) = 9 /\
    hour (fst c2) = 10 /\
    Some (Ok [c1]) <> Some (Ok [c2]).
Proof.
  eexists. eexists. split; [reflexivity|].
  split; [reflexivity|]. split; [reflexivity|]. discriminate.
Qed.

(** C5, amended.  The schedule is a function of the scanner and of the
    draws the module-global generator will yield: from two generator
    states with the same draws to come, [prepare_commits] computes the
    same schedule. *)
Theorem same_draws_same_schedule (sc : Scanner) (g1 g2 : Rng) :
  agree g1 g2 ->
  option_map fst (prepare_commits sc g1) = option_map fst (prepare_commits sc g2).
Proof.
  intros Hg. unfold prepare_commits.
  destruct (negb (nonempty (files sc))); [reflexivity|].
  now apply date_loop_agree.
Qed.

Lemma same_draws_same_schedule_witness :
  agree (of_draws [0; 0; 0; 3; 7]) (after_draws 2 [0; 0; 0; 3; 7]) /\
  option_map fst (prepare_commits saturday_scanner (of_draws [0; 0; 0; 3; 7]))
  = option_map fst (prepare_commits saturday_scanner
                                    (after_draws 2 [0; 0; 0; 3; 7])).
Proof.
  assert (H : agree (of_draws [0; 0; 0; 3; 7]) (after_draws 2 [0; 0; 0; 3; 7])).
  { intros i. unfold of_draws, after_draws. cbn [draws pos].
    replace (2 + i - 2)%nat with (0 + i)%nat by lia. reflexivity. }
  split; [exact H|].
  apply (same_draws_same_schedule saturday_scanner _ _ H).
Defined.

End SchedulerClaims.

(** * Further properties *)

(** ** Repository URLs *)

Section RepoUrls.
Import GitHubScraper StringShapes.

Lemma string_app_assoc (a b c : string) :
  ((a ++ b) ++ c)%string = (a ++ (b ++ c))%string.
Proof. induction a as [|x a IH]; simpl; [reflexivity|now rewrite IH]. Qed.

Lemma has_char_app (c : ascii) (a b : string) :
  has_char c (a ++ b)%string = has_char c a || has_char c b.
Proof.
  induction a as [|x a IH]; simpl; [reflexivity|].
  now rewrite IH, orb_assoc.
Qed.

Lemma rstrip_slash_app_slash (s : string) :
  rstrip_slash (s ++ "/")%string = rstrip_slash s.
Proof. induction s as [|c s IH]; simpl; [reflexivity|now rewrite IH]. Qed.

Lemma rstrip_slash_last (a : string) (c : ascii) :
  Ascii.eqb c "/" = false ->
  rstrip_slash (a ++ String c EmptyString)%string
  = (a ++ String c EmptyString)%string.
Proof.
  intros Hc. induction a as [|x a IH]; simpl.
  - now rewrite Hc.
  - rewrite IH. now destruct a.
Qed.

Lemma rstrip_slash_none (s : string) :
  has_char "/" s = false -> rstrip_slash s = s.
Proof.
  induction s as [|c s IH]; simpl; [reflexivity|].
  intros H. apply orb_false_iff in H as [Hc Hs].
  rewrite (IH Hs), Hc. now destruct s.
Qed.

Lemma split_slash_none (s : string) :
  has_char "/" s = false -> split_slash s = [s].
Proof.
  induction s as [|c s IH]; simpl; [reflexivity|].
  intros H. apply orb_false_iff in H as [Hc Hs].
  now rewrite Hc, (IH Hs).
Qed.

Lemma split_slash_nonempty (s : string) : split_slash s <> [].
Proof.
  induction s as [|c s IH]; simpl; [discriminate|].
  destruct (Ascii.eqb c "/"); [discriminate|].
  destruct (split_slash s); discriminate.
Qed.

Lemma split_slash_app (a b : string) :
  split_slash (a ++ String "/" b)%string = split_slash a ++ split_slash b.
Proof.
  induction a as [|c a IH]; simpl; [reflexivity|].
  destruct (Ascii.eqb c "/"); rewrite IH; [reflexivity|].
  pose proof (split_slash_nonempty a) as Hne.
  destruct (split_slash a); [contradiction|reflexivity].
Qed.

Lemma remove_dot_git_other (c : ascii) (s : string) :
  Ascii.eqb c "." = false ->
  remove_dot_git (String c s) = String c (remove_dot_git s).
Proof.
  destruct c as [[] [] [] [] [] [] [] []]; intros H;
    try discriminate H; reflexivity.
Qed.

Lemma remove_dot_git_suffix (base : string) :
  has_char "." base = false ->
  remove_dot_git (base ++ ".git")%string = base.
Proof.
  induction base as [|c base IH]; [reflexivity|].
  simpl has_char. intros H. apply orb_false_iff in H as [Hc Hb].
  change ((String c base ++ ".git")%string)
    with (String c (base ++ ".git")%string).
  rewrite (remove_dot_git_other c _ Hc). now rewrite (IH Hb).
Qed.

(** Trailing slashes do not matter to [_parse_repo_url]. *)
Theorem parse_repo_url_trailing_slash (repo_url : string) :
  _parse_repo_url (repo_url ++ "/")%string = _parse_repo_url repo_url.
Proof.
  unfold _parse_repo_url. now rewrite rstrip_slash_app_slash.
Qed.

(** A URL without any slash has a single part and is rejected with
    [IndexError]. *)
Theorem parse_repo_url_no_slash (repo_url : string) :
  has_char "/" repo_url = false ->
  _parse_repo_url repo_url = Raise IndexError.
Proof.
  intros H. unfold _parse_repo_url.
  now rewrite (rstrip_slash_none _ H), (split_slash_none _ H).
Qed.

Lemma parse_repo_url_no_slash_witness :
  _parse_repo_url "octo-demo.git" = Raise IndexError.
Proof. apply parse_repo_url_no_slash. reflexivity. Defined.

(** A URL that ends in [/owner/name.git] is read as that owner and that
    name, whatever comes before. *)
Theorem parse_repo_url_owner_name (prefix owner base : string) :
  has_char "/" owner = false ->
  has_char "/" base = false ->
  has_char "." base = false ->
  _parse_repo_url (prefix ++ "/" ++ owner ++ "/" ++ base ++ ".git")%string
  = Ok (owner, base).
Proof.
  intros Ho Hb Hd. unfold _parse_repo_url.
  assert (Hend : (prefix ++ "/" ++ owner ++ "/" ++ base ++ ".git")%string
                 = ((prefix ++ "/" ++ owner ++ "/" ++ base ++ ".gi")
                      ++ String "t" EmptyString)%string).
  { rewrite !string_app_assoc. reflexivity. }
  rewrite Hend, rstrip_slash_last by reflexivity. rewrite <- Hend.
  change ((prefix ++ "/" ++ owner ++ "/" ++ base ++ ".git")%string)
    with ((prefix ++ String "/" (owner ++ String "/" (base ++ ".git")))%string).
  rewrite !split_slash_app.
  rewrite (split_slash_none owner Ho).
  rewrite (split_slash_none (base ++ ".git")%string)
    by (rewrite has_char_app, Hb; reflexivity).
  unfold last_two. rewrite !rev_app_distr. simpl.
  now rewrite (remove_dot_git_suffix base Hd).
Qed.

Lemma parse_repo_url_owner_name_witness :
  _parse_repo_url "https://github.com/octo/demo.git" = Ok ("octo", "demo").
Proof.
  apply (parse_repo_url_owner_name "https://github.com" "octo" "demo");
    reflexivity.
Defined.

End RepoUrls.

(** ** More on the aggregation pipeline *)

Section AggregationMore.
Import GitHubScraper ContributionAnalyzer Scenarios.

Lemma mapM_raises {A B : Type} (f : A -> result B) (l : list A) (x : A) (e : exn) :
  In x l -> f x = Raise e -> exists e', mapM f l = Raise e'.
Proof.
  induction l as [|a l IH]; intros Hin Hx; [contradiction|].
  simpl. destruct Hin as [->|Hin].
  - rewrite Hx. simpl. eauto.
  - destruct (f a); simpl; [|eauto].
    destruct (IH Hin Hx) as [e' ->]. simpl. eauto.
Qed.

Lemma Forall2_in_l {A B : Type} (R : A -> B -> Prop) (l : list A) (l' : list B)
    (x : A) :
  Forall2 R l l' -> In x l -> exists y, In y l' /\ R x y.
Proof.
  induction 1 as [|a b l l' Hab _ IH]; intros Hin; [contradiction|].
  destruct Hin as [->|Hin].
  - exists b. split; [now left|assumption].
  - destruct (IH Hin) as (y & Hy & Hr). exists y. split; [now right|assumption].
Qed.

(** The enrichment step is all or nothing: it returns one record per
    listed commit, or no record at all. *)
Theorem process_commits_all_or_nothing (r : Remote) (commits : list json) :
  _process_commits r (JArr commits) = [] \/
  List.length (_process_commits r (JArr commits)) = List.length commits.
Proof.
  unfold _process_commits. simpl.
  destruct (mapM (fun commit => py_getitem commit "url") commits)
    as [tasks|e] eqn:Ht; simpl; [|now left].
  destruct (mapM (_fetch_commit_details r) tasks) as [enriched|e] eqn:He;
    [|now left].
  right. apply mapM_Forall2 in Ht, He.
  now rewrite <- (Forall2_length He), <- (Forall2_length Ht).
Qed.

Lemma process_commits_one_raises (r : Remote) (commits : list json) (c : json) :
  In c commits ->
  detail_outcome r c = Some TimesOut ->
  _process_commits r (JArr commits) = [].
Proof.
  intros Hin Hc. unfold _process_commits. simpl.
  destruct (mapM (fun commit => py_getitem commit "url") commits)
    as [tasks|e] eqn:Ht; simpl; [|reflexivity].
  apply mapM_Forall2 in Ht.
  destruct (Forall2_in_l _ _ _ c Ht Hin) as (u & Hu & Hget).
  unfold detail_outcome in Hc. rewrite Hget in Hc.
  destruct u as [| | |s| |]; try discriminate.
  injection Hc as Hc.
  destruct (mapM_raises (_fetch_commit_details r) tasks (JStr s) TimeoutError Hu)
    as [e' ->]; [|reflexivity].
  unfold _fetch_commit_details. now rewrite Hc.
Qed.

(** One detail request that raises anything but a client error empties
    the whole fetch: the listing succeeded, yet [fetch_contributions]
    returns no record at all, those of the other commits included, and
    nothing is raised. *)
Theorem one_timeout_empties_fetch (r : Remote) (repo_url owner nm : string)
    (s e : datetime) (status : Z) (commits : list json) (c : json) :
  _parse_repo_url repo_url = Ok (owner, nm) ->
  commits_endpoint r owner nm s e = Responds status (JArr commits) ->
  status < 400 ->
  In c commits ->
  detail_outcome r c = Some TimesOut ->
  fetch_contributions r repo_url s e = Ok [].
Proof.
  intros Hp He Hs Hin Hc.
  unfold fetch_contributions.
  rewrite Hp; simpl. rewrite He.
  replace (400 <=? status) with false by (symmetry; apply Z.leb_gt; lia).
  now rewrite (process_commits_one_raises r commits c Hin Hc).
Qed.

Lemma one_timeout_empties_fetch_witness :
  fetch_contributions
    (remote_of [("c1", Responds 200 (detail_by "x"));
                ("c2", TimesOut);
                ("c3", Responds 200 (detail_by "y"))])
    repo monday saturday = Ok [].
Proof.
  apply (one_timeout_empties_fetch _ repo "octo" "demo" monday saturday 200
           [commit_ref "c1"; commit_ref "c2"; commit_ref "c3"] (commit_ref "c2")).
  - reflexivity.
  - reflexivity.
  - lia.
  - right. left. reflexivity.
  - reflexivity.
Defined.

Lemma mapM_url_of_strings (l : list json) :
  Forall (fun c => exists s, c = JStr s) l ->
  l = [] \/ exists e, mapM (fun commit => py_getitem commit "url") l = Raise e.
Proof.
  intros H. destruct H as [|c l [s ->] _]; [now left|].
  right. simpl. eauto.
Qed.

(** A listing whose body is not a JSON array yields no record. *)
Theorem process_commits_not_array (r : Remote) (commits_data : json) :
  (forall items, commits_data <> JArr items) ->
  _process_commits r commits_data = [].
Proof.
  intros Hna.
  assert (Hstr : forall l, Forall (fun c => exists s, c = JStr s) l ->
            match
              (tasks <- mapM (fun commit => py_getitem commit "url") l ;;
               mapM (_fetch_commit_details r) tasks)%res
            with
            | Ok enriched_data => enriched_data
            | Raise _ => []
            end = []).
  { intros l Hl. destruct (mapM_url_of_strings l Hl) as [->|[e ->]]; reflexivity. }
  unfold _process_commits.
  destruct commits_data as [| | |s|items|fields]; simpl; try reflexivity.
  - apply Hstr. clear. induction s as [|c s IH]; simpl; constructor; eauto.
  - now elim (Hna items).
  - apply Hstr. apply Forall_map, Forall_forall. intros kv _. eauto.
Qed.

Lemma process_commits_not_array_witness :
  _process_commits remote_one_missing
                   (JObj [("message", JStr "API rate limit exceeded")]) = [].
Proof. apply process_commits_not_array. intros items H. discriminate H. Defined.

(** *** The counts, author by author *)

Lemma count_commits_inv (data : list json) (acc c : counts) :
  count_commits data acc = Ok c ->
  exists authors, mapM author_of data = Ok authors /\ c = tally authors acc.
Proof.
  revert acc; induction data as [|x data IH]; intros acc H; simpl in H.
  - injection H as <-. now exists [].
  - destruct (author_of x) as [a|e] eqn:Ha; simpl in H; [|discriminate].
    destruct (IH _ H) as (authors & Hm & ->).
    exists (a :: authors). simpl. rewrite Ha; simpl. rewrite Hm. now split.
Qed.

Lemma count_of_positive (authors : list hkey) (a : hkey) :
  In a authors -> 1 <= occurrences a authors.
Proof.
  induction authors as [|b rest IH]; intros Hin; [contradiction|].
  destruct Hin as [->|Hin].
  - rewrite occurrences_cons_same.
    pose proof (occurrences_nonneg a rest). lia.
  - specialize (IH Hin). simpl. destruct (hkey_eqb b a); lia.
Qed.

Lemma first_seen_in_inv (seen authors : list hkey) (a : hkey) :
  In a (first_seen seen authors) -> In a seen \/ In a authors.
Proof.
  revert seen; induction authors as [|b rest IH]; intros seen H; simpl in H;
    [auto|].
  destruct (existsb (hkey_eqb b) seen).
  - destruct (IH _ H); auto. right. now right.
  - destruct (IH _ H) as [H'|H']; [|right; now right].
    apply in_app_or in H' as [H'|[<-|[]]]; auto. right. now left.
Qed.

(** The counts that the counting loop of [analyze_contributions] builds
    are exact: the keys are the distinct authors in order of first
    appearance, and each author's count is the number of records of that
    author. *)
Theorem count_commits_exact (data : list json) (authors : list hkey) :
  mapM author_of data = Ok authors ->
  exists contribs,
    count_commits data [] = Ok contribs /\
    map fst contribs = first_seen [] authors /\
    NoDup (map fst contribs) /\
    (forall a, count_of a contribs = occurrences a authors) /\
    (forall a n, In (a, n) contribs -> In a authors /\ 1 <= n) /\
    total contribs = len data.
Proof.
  intros Ha. exists (tally authors []).
  assert (Hkeys : map fst (tally authors []) = first_seen [] authors)
    by apply (keys_tally authors []).
  split; [|split; [|split; [|split; [|split]]]].
  - now apply count_commits_tally.
  - exact Hkeys.
  - rewrite Hkeys. apply first_seen_nodup. constructor.
  - intros a. rewrite count_of_tally. reflexivity.
  - intros a n Hin. rewrite (tally_in_count authors a n Hin).
    assert (Hin' : In a authors).
    { apply (in_map fst) in Hin. rewrite Hkeys in Hin.
      destruct (first_seen_in_inv [] authors a Hin) as [[]|]; assumption. }
    split; [assumption|now apply count_of_positive].
  - rewrite total_tally. apply mapM_Forall2, Forall2_length in Ha.
    unfold len, total. simpl. now rewrite Ha.
Qed.

Lemma count_commits_exact_witness :
  exists contribs,
    count_commits (map detail_by ["x"; "y"; "x"]) [] = Ok contribs /\
    map fst contribs = [KStr "x"; KStr "y"] /\
    count_of (KStr "x") contribs = 2.
Proof.
  destruct (count_commits_exact
              (map detail_by ["x"; "y"; "x"]) (map KStr ["x"; "y"; "x"]))
    as (contribs & Hrun & Hkeys & _ & Hcount & _).
  - reflexivity.
  - exists contribs. split; [exact Hrun|]. split; [exact Hkeys|].
    exact (Hcount (KStr "x")).
Defined.

(** One record whose author cannot be read (a ["commit"] that is not an
    object, a name that is a list) makes the counting loop of
    [analyze_contributions] raise, whatever the other records are, where
    a record without the keys is counted as ["Unknown"]. *)
Theorem malformed_record_aborts_counting (data : list json) (record : json)
    (x : exn) (acc : counts) :
  In record data ->
  author_of record = Raise x ->
  exists x', count_commits data acc = Raise x'.
Proof.
  intros Hin Hr.
  destruct (count_commits data acc) as [c|x'] eqn:Hc; [|eauto].
  apply count_commits_inv in Hc as (authors & Hm & _).
  destruct (mapM_raises author_of data record x Hin Hr) as [x' Hx'].
  congruence.
Qed.

Lemma malformed_record_aborts_counting_witness :
  exists x',
    count_commits [detail_by "x"; JObj [("commit", JNull)]; JObj []] []
      = Raise x'.
Proof.
  apply (malformed_record_aborts_counting
           [detail_by "x"; JObj [("commit", JNull)]; JObj []]
           (JObj [("commit", JNull)]) AttributeError []).
  - right. left. reflexivity.
  - reflexivity.
Defined.

Lemma occurrences_perm (a : hkey) (l l' : list hkey) :
  Permutation l l' -> occurrences a l = occurrences a l'.
Proof.
  induction 1 as [|x l l' _ IH|x y l|l l' l'' _ IH1 _ IH2]; simpl.
  - reflexivity.
  - now rewrite IH.
  - lia.
  - congruence.
Qed.

Lemma mapM_perm {A B : Type} (f : A -> result B) (l l' : list A) (bs : list B) :
  Permutation l l' -> mapM f l = Ok bs ->
  exists bs', mapM f l' = Ok bs' /\ Permutation bs bs'.
Proof.
  intros Hp. revert bs.
  induction Hp as [|x l l' _ IH|x y l|l l' l'' _ IH1 _ IH2]; intros bs H.
  - exists bs. now split.
  - simpl in *. destruct (f x) as [b|]; simpl in *; [|discriminate].
    destruct (mapM f l) as [bs0|]; simpl in *; [|discriminate].
    injection H as <-. destruct (IH _ eq_refl) as (bs' & -> & Hperm).
    exists (b :: bs'). simpl. split; [reflexivity|now constructor].
  - simpl in *. destruct (f y) as [b|]; simpl in *; [|discriminate].
    destruct (f x) as [b'|]; simpl in *; [|discriminate].
    destruct (mapM f l) as [bs0|]; simpl in *; [|discriminate].
    injection H as <-. exists (b' :: b :: bs0). split; [reflexivity|].
    apply perm_swap.
  - destruct (IH1 _ H) as (bs1 & H1 & Hp1).
    destruct (IH2 _ H1) as (bs2 & H2 & Hp2).
    exists bs2. split; [assumption|]. now transitivity bs1.
Qed.

(** The counts do not depend on the order of the fetched records: any
    reordering gives every author the same count and the same sum (only
    the order of the keys can change). *)
Theorem counts_independent_of_order (data data' : list json) (c : counts) :
  Permutation data data' ->
  count_commits data [] = Ok c ->
  exists c',
    count_commits data' [] = Ok c' /\
    (forall a, count_of a c' = count_of a c) /\
    total c' = total c.
Proof.
  intros Hp Hc. apply count_commits_inv in Hc as (authors & Hm & ->).
  destruct (mapM_perm author_of data data' authors Hp Hm) as (authors' & Hm' & Hpa).
  exists (tally authors' []). split; [now apply count_commits_tally|]. split.
  - intros a. rewrite !count_of_tally. f_equal. symmetry.
    now apply occurrences_perm.
  - rewrite !total_tally. unfold len.
    now rewrite (Permutation_length Hpa).
Qed.

Lemma counts_independent_of_order_witness :
  exists c',
    count_commits (map detail_by ["y"; "x"; "x"]) [] = Ok c' /\
    (forall a, count_of a c' = count_of a [(KStr "x", 2); (KStr "y", 1)]) /\
    total c' = total [(KStr "x", 2); (KStr "y", 1)].
Proof.
  apply (counts_independent_of_order (map detail_by ["x"; "y"; "x"])).
  - simpl. apply perm_trans with (detail_by "y" :: detail_by "x" :: [detail_by "x"]).
    + apply perm_swap.
    + reflexivity.
  - reflexivity.
Defined.

End AggregationMore.

(** ** Contributions per day *)

Section Daily.
Import GitHubScraper ContributionAnalyzer DailyContributions Scenarios MoreScenarios.

Lemma filter_split_len {A : Type} (p : A -> bool) (l : list A) :
  len (filter p l) + len (filter (fun x => negb (p x)) l) = len l.
Proof.
  unfold len. induction l as [|a l IH]; simpl; [reflexivity|].
  destruct (p a); simpl List.length; lia.
Qed.

Lemma count_days_total (day_key : string -> result string) (data : list json) :
  forall acc : counts,
    forallb (countable day_key) data = true ->
    exists daily,
      count_days day_key data acc = Ok daily /\
      total daily = total acc + len (filter dated data).
Proof.
  induction data as [|c data IH]; intros acc Hall.
  - exists acc. split; [reflexivity|]. unfold len; simpl. lia.
  - simpl in Hall. apply andb_true_iff in Hall as [Hc Hall].
    unfold countable in Hc. simpl count_days. simpl filter. unfold dated at 1.
    destruct (date_str_of c) as [v|] eqn:Hv; [|discriminate]. simpl rbind.
    destruct (py_truthy v) eqn:Ht.
    + destruct v as [| | |s| |]; try discriminate.
      destruct (day_key s) as [k|] eqn:Hk; [|discriminate]. simpl rbind.
      destruct (IH (increment (KStr k) acc) Hall) as (daily & Hd & Htot).
      exists daily. split; [assumption|].
      rewrite Htot, total_increment. unfold len. simpl List.length. lia.
    + apply IH. assumption.
Qed.

(** The loop of [analyze_daily_contributions] skips every record without
    a date, the empty record of a failed fetch among them, where the loop
    of [analyze_contributions] counts it as ["Unknown"]: over the same
    records, the two sums differ by the number of records without a
    date. *)
Theorem daily_counts_skip_dateless (day_key : string -> result string)
    (data : list json) (authors : list hkey) :
  mapM author_of data = Ok authors ->
  forallb (countable day_key) data = true ->
  exists by_author daily,
    count_commits data [] = Ok by_author /\
    count_days day_key data [] = Ok daily /\
    total daily = len (filter dated data) /\
    total by_author - total daily
    = len (filter (fun c => negb (dated c)) data).
Proof.
  intros Ha Hall.
  destruct (count_days_total day_key data [] Hall) as (daily & Hd & Htot).
  exists (tally authors []), daily.
  split; [|split; [|split]].
  - now apply count_commits_tally.
  - exact Hd.
  - rewrite Htot. reflexivity.
  - rewrite total_tally, Htot. apply mapM_Forall2, Forall2_length in Ha.
    pose proof (filter_split_len dated data) as Hsplit.
    unfold len in *. rewrite <- Ha. change (total []) with 0. lia.
Qed.

(** The records that [fetch_contributions] returns in the five-commit
    scenario, the third being the empty record of the failed fetch. *)
Lemma daily_counts_skip_dateless_witness :
  fetch_contributions remote_one_missing repo monday saturday
    = Ok [detail_by "x"; detail_by "y"; JObj []; detail_by "x"; detail_by "z"] /\
  exists by_author daily,
    count_commits
      [detail_by "x"; detail_by "y"; JObj []; detail_by "x"; detail_by "z"] []
      = Ok by_author /\
    count_days first_ten
      [detail_by "x"; detail_by "y"; JObj []; detail_by "x"; detail_by "z"] []
      = Ok daily /\
    total daily = 4 /\
    total by_author - total daily = 1.
Proof.
  split; [reflexivity|].
  apply (daily_counts_skip_dateless first_ten
           [detail_by "x"; detail_by "y"; JObj []; detail_by "x"; detail_by "z"]
           [KStr "x"; KStr "y"; Unknown; KStr "x"; KStr "z"]);
    reflexivity.
Defined.

(** One record whose date is not a string of the expected shape makes
    the loop of [analyze_daily_contributions] raise, whatever the other
    records are. *)
Theorem bad_date_aborts_daily_counting (day_key : string -> result string)
    (data : list json) (record : json) (acc : counts) :
  In record data ->
  countable day_key record = false ->
  exists x, count_days day_key data acc = Raise x.
Proof.
  intros Hin Hr. revert acc.
  induction data as [|c data IH]; intros acc; [contradiction|].
  simpl. destruct Hin as [->|Hin].
  - unfold countable in Hr.
    destruct (date_str_of record) as [v|x]; simpl; [|eauto].
    destruct (py_truthy v); [|discriminate].
    destruct v as [| | |str| |]; eauto.
    destruct (day_key str); [discriminate|simpl; eauto].
  - destruct (date_str_of c) as [v|x]; simpl; [|eauto].
    destruct (py_truthy v); [|now apply IH].
    destruct v as [| | |str| |]; eauto.
    destruct (day_key str); simpl; [now apply IH|eauto].
Qed.

Lemma bad_date_aborts_daily_counting_witness :
  exists x,
    count_days first_ten
      [detail_by "x";
       JObj [("commit", JObj [("author", JObj [("date", JStr "today")])])]] []
      = Raise x.
Proof.
  apply (bad_date_aborts_daily_counting first_ten
           [detail_by "x";
            JObj [("commit", JObj [("author", JObj [("date", JStr "today")])])]]
           (JObj [("commit", JObj [("author", JObj [("date", JStr "today")])])])
           []).
  - right. left. reflexivity.
  - reflexivity.
Defined.

(** As shipped, none of the three analyses returns: [GitHubScraper]
    leaves the abstract methods [scrape_commits] and
    [scrape_contributors] of [ScraperInterface] undefined, so
    [GitHubScraper()] raises [TypeError], and each of the three calls
    logs it and raises it again, for every repository, window and
    remote, before any request is made. *)
Theorem analysis_calls_raise (day_key : string -> result string)
    (r : Remote) (repo_url : string) (s e : datetime) (top_n : Z) :
  GitHubScraper.instantiate = Raise TypeError /\
  analyze_contributions r repo_url s e = Raise TypeError /\
  get_top_contributors r repo_url s e top_n = Raise TypeError /\
  analyze_daily_contributions day_key r repo_url s e = Raise TypeError.
Proof.
  split; [reflexivity|]. split; [reflexivity|]. split; reflexivity.
Qed.

End Daily.

(** ** Datetime arithmetic *)

Section DatetimeArithmetic.
Import DateHandlerOps.

Lemma to_of_micro (t : Z) : to_micro (of_micro t) = t.
Proof.
  unfold to_micro, of_micro; simpl.
  pose proof (Z.div_mod t 1000000).
  pose proof (Z.div_mod (t / 1000000) 60).
  pose proof (Z.div_mod (t / 1000000 / 60) 60).
  pose proof (Z.div_mod (t / 1000000 / 60 / 60) 24).
  lia.
Qed.

Lemma of_micro_valid (t : Z) : valid_time (of_micro t).
Proof.
  unfold valid_time, of_micro; simpl.
  pose proof (Z.mod_pos_bound t 1000000).
  pose proof (Z.mod_pos_bound (t / 1000000) 60).
  pose proof (Z.mod_pos_bound (t / 1000000 / 60) 60).
  pose proof (Z.mod_pos_bound (t / 1000000 / 60 / 60) 24).
  lia.
Qed.

Lemma of_to_micro (d : datetime) : valid_time d -> of_micro (to_micro d) = d.
Proof.
  intros (Hh & Hm & Hs & Hu). destruct d as [o h m s u]; simpl in *.
  unfold of_micro, to_micro; simpl.
  assert (E1 : ((((o * 24 + h) * 60 + m) * 60 + s) * 1000000 + u) / 1000000
               = ((o * 24 + h) * 60 + m) * 60 + s)
    by (symmetry; apply (Z.div_unique _ _ _ u); lia).
  assert (E2 : (((o * 24 + h) * 60 + m) * 60 + s) / 60 = (o * 24 + h) * 60 + m)
    by (symmetry; apply (Z.div_unique _ _ _ s); lia).
  assert (E3 : ((o * 24 + h) * 60 + m) / 60 = o * 24 + h)
    by (symmetry; apply (Z.div_unique _ _ _ m); lia).
  assert (E4 : (o * 24 + h) / 24 = o)
    by (symmetry; apply (Z.div_unique _ _ _ h); lia).
  rewrite E1, E2, E3, E4. f_equal.
  - symmetry; apply (Z.mod_unique _ _ o); lia.
  - symmetry; apply (Z.mod_unique _ _ (o * 24 + h)); lia.
  - symmetry; apply (Z.mod_unique _ _ ((o * 24 + h) * 60 + m)); lia.
  - symmetry; apply (Z.mod_unique _ _ (((o * 24 + h) * 60 + m) * 60 + s)); lia.
Qed.

(** Comparing datetimes is comparing instants. *)
Lemma compare_to_micro (a b : datetime) :
  valid_time a -> valid_time b ->
  DateTime.compare a b = (to_micro a ?= to_micro b).
Proof.
  intros (Hh & Hm & Hs & Hu) (Hh' & Hm' & Hs' & Hu').
  unfold DateTime.compare, to_micro.
  destruct a as [o h m s u], b as [o' h' m' s' u']; simpl in *.
  symmetry.
  destruct (Z.compare_spec o o'); [subst o'| apply Z.compare_lt_iff; lia
                                           | apply Z.compare_gt_iff; lia].
  destruct (Z.compare_spec h h'); [subst h'| apply Z.compare_lt_iff; lia
                                           | apply Z.compare_gt_iff; lia].
  destruct (Z.compare_spec m m'); [subst m'| apply Z.compare_lt_iff; lia
                                           | apply Z.compare_gt_iff; lia].
  destruct (Z.compare_spec s s'); [subst s'| apply Z.compare_lt_iff; lia
                                           | apply Z.compare_gt_iff; lia].
  destruct (Z.compare_spec u u'); [subst u'; apply Z.compare_refl
                                  | apply Z.compare_lt_iff; lia
                                  | apply Z.compare_gt_iff; lia].
Qed.

Lemma ltb_to_micro (a b : datetime) :
  valid_time a -> valid_time b ->
  (ltb a b = true <-> to_micro a < to_micro b).
Proof.
  intros Ha Hb. unfold ltb. rewrite (compare_to_micro a b Ha Hb).
  destruct (Z.compare_spec (to_micro a) (to_micro b)); split;
    intros; try discriminate; try lia; reflexivity.
Qed.

Lemma leb_to_micro (a b : datetime) :
  valid_time a -> valid_time b ->
  (leb a b = true <-> to_micro a <= to_micro b).
Proof.
  intros Ha Hb. unfold leb. rewrite (compare_to_micro a b Ha Hb).
  destruct (Z.compare_spec (to_micro a) (to_micro b)); split;
    intros; try discriminate; try lia; reflexivity.
Qed.

Lemma to_micro_plus_days (d : datetime) (i : Z) :
  to_micro (plus_days d i) = to_micro d + i * DAY_US.
Proof. unfold to_micro, plus_days, DAY_US; simpl. lia. Qed.

Lemma plus_days_valid (d : datetime) (i : Z) :
  valid_time d -> valid_time (plus_days d i).
Proof. intros H. exact H. Qed.

Lemma to_micro_ordinal (d : datetime) :
  valid_time d ->
  ordinal d * DAY_US <= to_micro d < (ordinal d + 1) * DAY_US.
Proof.
  intros (Hh & Hm & Hs & Hu). unfold to_micro, DAY_US. lia.
Qed.

(** Adding whole days moves the date and keeps the time of day. *)
Lemma add_timedelta_days (d : datetime) (n : Z) :
  valid_time d -> add_timedelta d (n * DAY_US) = add_days d n.
Proof.
  intros Hv. unfold add_timedelta, add_days.
  rewrite <- to_micro_plus_days, of_to_micro by now apply plus_days_valid.
  simpl. destruct ((1 <=? ordinal d + n) && (ordinal d + n <=? MAXORDINAL));
    reflexivity.
Qed.

Lemma add_timedelta_ok (d d' : datetime) (us : Z) :
  add_timedelta d us = Ok d' ->
  to_micro d' = to_micro d + us /\ valid_time d' /\
  1 <= ordinal d' <= MAXORDINAL.
Proof.
  unfold add_timedelta.
  destruct ((1 <=? ordinal (of_micro (to_micro d + us)))
            && (ordinal (of_micro (to_micro d + us)) <=? MAXORDINAL)) eqn:E;
    [|discriminate].
  intros H; injection H as <-.
  apply andb_true_iff in E as [E1 E2]. apply Z.leb_le in E1, E2.
  split; [apply to_of_micro|]. split; [apply of_micro_valid|lia].
Qed.

Lemma to_micro_inj (a b : datetime) :
  valid_time a -> valid_time b -> to_micro a = to_micro b -> a = b.
Proof.
  intros Ha Hb H. rewrite <- (of_to_micro a Ha), <- (of_to_micro b Hb).
  now rewrite H.
Qed.

End DatetimeArithmetic.

(** ** The operations of the date handler *)

Section DateHandlerFacts.
Import DateHandler DateHandlerOps DateUtilsOps Scenarios MoreScenarios.

(** Subtracting the days just added gives the date back. *)
Theorem add_then_subtract_days (d d' : datetime) (n : Z) :
  valid_time d ->
  1 <= ordinal d <= MAXORDINAL ->
  add_days_to_date d n = Ok d' ->
  subtract_days_from_date d' n = Ok d.
Proof.
  intros Hv Ho Hadd. unfold add_days_to_date in Hadd.
  apply add_timedelta_ok in Hadd as (Ht & _ & _).
  unfold subtract_days_from_date, add_timedelta.
  replace (to_micro d' + - (n * DAY_US)) with (to_micro d) by lia.
  rewrite (of_to_micro d Hv).
  assert (E : (1 <=? ordinal d) && (ordinal d <=? MAXORDINAL) = true)
    by (rewrite andb_true_iff, !Z.leb_le; lia).
  now rewrite E.
Qed.

Lemma add_then_subtract_days_witness :
  add_days_to_date (noon 2024 2 27) 3 = Ok (noon 2024 3 1) /\
  subtract_days_from_date (noon 2024 3 1) 3 = Ok (noon 2024 2 27).
Proof.
  split; [reflexivity|].
  apply (add_then_subtract_days (noon 2024 2 27) (noon 2024 3 1) 3).
  - unfold valid_time; simpl; lia.
  - vm_compute. split; discriminate.
  - reflexivity.
Defined.

(** Adding [n] days moves the weekday by [n] modulo 7, so a whole number
    of weeks keeps a date on or off the weekend. *)
Theorem add_days_weekday (d d' : datetime) (n : Z) :
  valid_time d ->
  add_days_to_date d n = Ok d' ->
  weekday d' = (weekday d + n) mod 7 /\
  (n mod 7 = 0 -> is_weekend d' = is_weekend d).
Proof.
  intros Hv Hadd. unfold add_days_to_date in Hadd.
  rewrite (add_timedelta_days d n Hv) in Hadd.
  apply add_days_ok in Hadd as [Ho _].
  assert (Hw : weekday d' = (weekday d + n) mod 7).
  { unfold weekday. rewrite Ho, Zplus_mod_idemp_l. f_equal. lia. }
  split; [exact Hw|]. intros Hn. unfold is_weekend. rewrite Hw.
  rewrite Zplus_mod, Hn, Z.add_0_r, Z.mod_mod by lia.
  unfold weekday. now rewrite Z.mod_mod by lia.
Qed.

Lemma add_days_weekday_witness :
  add_days_to_date saturday 14 = Ok (midnight 2024 1 20) /\
  weekday (midnight 2024 1 20) = (weekday saturday + 14) mod 7 /\
  (14 mod 7 = 0 -> is_weekend (midnight 2024 1 20) = is_weekend saturday).
Proof.
  split; [reflexivity|].
  apply (add_days_weekday saturday (midnight 2024 1 20) 14).
  - unfold valid_time; simpl; lia.
  - reflexivity.
Defined.

(** The name of the day says whether the date is on the weekend. *)
Theorem weekend_by_name (d : datetime) :
  DateUtils.is_weekend d = true <->
  get_day_of_week d = "Saturday" \/ get_day_of_week d = "Sunday".
Proof.
  unfold DateUtils.is_weekend, get_day_of_week, weekday.
  pose proof (Z.mod_pos_bound (ordinal d + 6) 7) as Hb.
  assert (Hw : In ((ordinal d + 6) mod 7) [0; 1; 2; 3; 4; 5; 6]) by (simpl; lia).
  simpl in Hw.
  destruct Hw as [<-|[<-|[<-|[<-|[<-|[<-|[<-|[]]]]]]]]; simpl;
    split; intros H; try discriminate; auto;
    destruct H as [H|H]; discriminate H.
Qed.

Lemma compare_antisym (a b : datetime) :
  DateTime.compare b a = CompOpp (DateTime.compare a b).
Proof.
  unfold DateTime.compare.
  rewrite (Z.compare_antisym (ordinal a) (ordinal b)),
          (Z.compare_antisym (hour a) (hour b)),
          (Z.compare_antisym (minute a) (minute b)),
          (Z.compare_antisym (second a) (second b)),
          (Z.compare_antisym (microsecond a) (microsecond b)).
  destruct (ordinal a ?= ordinal b); simpl; try reflexivity.
  destruct (hour a ?= hour b); simpl; try reflexivity.
  destruct (minute a ?= minute b); simpl; try reflexivity.
  destruct (second a ?= second b); simpl; reflexivity.
Qed.

Lemma not_ltb_leb (a b : datetime) : ltb a b = false -> leb b a = true.
Proof.
  unfold ltb, leb. rewrite (compare_antisym a b).
  destruct (DateTime.compare a b); simpl; intros H; try discriminate; reflexivity.
Qed.

Lemma leb_refl (a : datetime) : leb a a = true.
Proof.
  unfold leb, DateTime.compare. now rewrite !Z.compare_refl.
Qed.

(** Whatever pair is accepted, the start returned is not before the
    lookback limit and the end returned is not after the lookahead
    limit. *)
Theorem validate_date_range_clamps (date_config : DateConfig)
    (now start_date end_date max_past max_future s' e' : datetime) :
  add_days now (- max_days_lookback date_config) = Ok max_past ->
  add_days now (max_days_ahead date_config) = Ok max_future ->
  validate_date_range date_config now start_date end_date = Ok (s', e') ->
  leb max_past s' = true /\ leb e' max_future = true /\
  (s' = start_date \/ s' = max_past) /\ (e' = end_date \/ e' = max_future).
Proof.
  intros Hp Hf. unfold validate_date_range.
  destruct (gtb start_date end_date); [discriminate|].
  rewrite Hp, Hf; simpl. intros H; injection H as <- <-.
  split; [|split; [|split]].
  - destruct (ltb start_date max_past) eqn:E;
      [apply leb_refl|now apply not_ltb_leb].
  - destruct (gtb end_date max_future) eqn:E;
      [apply leb_refl|now apply not_ltb_leb].
  - destruct (ltb start_date max_past); auto.
  - destruct (gtb end_date max_future); auto.
Qed.

Lemma validate_date_range_clamps_witness :
  validate_date_range thirty_days (midnight 2024 6 1)
                      (midnight 2024 1 1) (midnight 2024 6 15)
    = Ok (midnight 2024 5 2, midnight 2024 6 15) /\
  leb (midnight 2024 5 2) (midnight 2024 5 2) = true /\
  leb (midnight 2024 6 15) (midnight 2024 7 1) = true.
Proof.
  split; [reflexivity|].
  destruct (validate_date_range_clamps thirty_days (midnight 2024 6 1)
              (midnight 2024 1 1) (midnight 2024 6 15)
              (midnight 2024 5 2) (midnight 2024 7 1)
              (midnight 2024 5 2) (midnight 2024 6 15))
    as (H1 & H2 & _); try reflexivity.
  now split.
Defined.

Lemma validate_date_range_ordered_witness :
  gtb (midnight 2024 5 2) (midnight 2024 6 15) = false.
Proof.
  apply (validate_date_range_ordered thirty_days (midnight 2024 6 1)
           (midnight 2024 1 1) (midnight 2024 6 15)
           (midnight 2024 5 2) (midnight 2024 7 1)); reflexivity.
Defined.

(** *** Date ranges *)

Lemma in_range (n i : Z) : In i (range n) <-> 0 <= i < n.
Proof.
  unfold range. rewrite in_map_iff. split.
  - intros (k & <- & Hk). apply in_seq in Hk. lia.
  - intros H. exists (Z.to_nat i). split; [lia|]. apply in_seq. lia.
Qed.

Lemma mapM_map_ok {A B : Type} (f : A -> result B) (g : A -> B) (l : list A) :
  (forall x, In x l -> f x = Ok (g x)) -> mapM f l = Ok (map g l).
Proof.
  induction l as [|a l IH]; intros H; simpl; [reflexivity|].
  rewrite (H a) by now left. simpl.
  rewrite IH by (intros x Hx; apply H; now right). reflexivity.
Qed.

(** [get_date_range] returns the datetimes one day apart from
    [start_date] on, at its time of day, that are not after [end_date]:
    all of them, in order, and no other. *)
Theorem get_date_range_days (start_date end_date : datetime) :
  valid_time start_date -> valid_time end_date ->
  1 <= ordinal start_date ->
  ordinal end_date <= MAXORDINAL ->
  exists k,
    get_date_range start_date end_date
      = Ok (map (plus_days start_date) (range k)) /\
    (forall i, 0 <= i -> (i < k <-> leb (plus_days start_date i) end_date = true)).
Proof.
  intros Hs He Hos Hoe.
  set (k := days_between end_date start_date + 1).
  assert (Hk : forall i, 0 <= i ->
            (i < k <-> to_micro start_date + i * DAY_US <= to_micro end_date)).
  { intros i Hi. unfold k, days_between. split; intros H.
    - assert (i <= (to_micro end_date - to_micro start_date) / DAY_US) by lia.
      pose proof (Z.mul_div_le (to_micro end_date - to_micro start_date) DAY_US
                               eq_refl).
      assert (DAY_US * i <= DAY_US * ((to_micro end_date - to_micro start_date)
                                        / DAY_US))
        by (apply Z.mul_le_mono_nonneg_l; [discriminate|assumption]).
      lia.
    - assert (i <= (to_micro end_date - to_micro start_date) / DAY_US); [|lia].
      apply Z.div_le_lower_bound; [reflexivity|lia]. }
  exists k. split.
  - unfold get_date_range. fold k. apply mapM_map_ok.
    intros i Hi. apply in_range in Hi.
    rewrite (add_timedelta_days start_date i Hs). unfold add_days.
    assert (Hle : to_micro start_date + i * DAY_US <= to_micro end_date)
      by (apply Hk; lia).
    pose proof (to_micro_ordinal (plus_days start_date i)
                  (plus_days_valid _ i Hs)) as Hb.
    rewrite to_micro_plus_days in Hb. simpl in Hb.
    pose proof (to_micro_ordinal end_date He) as Hb'.
    unfold DAY_US in *.
    assert (E : (1 <=? ordinal start_date + i)
                && (ordinal start_date + i <=? MAXORDINAL) = true)
      by (rewrite andb_true_iff, !Z.leb_le; lia).
    now rewrite E.
  - intros i Hi. rewrite (Hk i Hi), <- to_micro_plus_days.
    symmetry. apply leb_to_micro; [now apply plus_days_valid|assumption].
Qed.

Lemma get_date_range_days_witness :
  get_date_range (noon 2024 1 1) (midnight 2024 1 4)
    = Ok [noon 2024 1 1; noon 2024 1 2; noon 2024 1 3] /\
  exists k,
    get_date_range (noon 2024 1 1) (midnight 2024 1 4)
      = Ok (map (plus_days (noon 2024 1 1)) (range k)) /\
    (forall i, 0 <= i ->
       (i < k <-> leb (plus_days (noon 2024 1 1) i) (midnight 2024 1 4) = true)).
Proof.
  split; [reflexivity|].
  apply (get_date_range_days (noon 2024 1 1) (midnight 2024 1 4)).
  - unfold valid_time; simpl; lia.
  - unfold valid_time; simpl; lia.
  - vm_compute. discriminate.
  - vm_compute. discriminate.
Defined.

End DateHandlerFacts.

(** ** Date windows *)

Section DateWindows.
Import DateHandlerOps Scenarios MoreScenarios.

Lemma py_min_to_micro (a b : datetime) :
  valid_time a -> valid_time b ->
  valid_time (py_min a b) /\
  to_micro (py_min a b) = Z.min (to_micro a) (to_micro b).
Proof.
  intros Ha Hb. unfold py_min. destruct (ltb b a) eqn:E.
  - apply (ltb_to_micro b a Hb Ha) in E. split; [assumption|lia].
  - assert (~ to_micro b < to_micro a).
    { intros H. apply (ltb_to_micro b a Hb Ha) in H. congruence. }
    split; [assumption|lia].
Qed.

Lemma add_timedelta_in_range (d : datetime) (us : Z) :
  DAY_US <= to_micro d + us < (MAXORDINAL + 1) * DAY_US ->
  exists d', add_timedelta d us = Ok d'.
Proof.
  intros H. unfold add_timedelta.
  pose proof (to_micro_ordinal _ (of_micro_valid (to_micro d + us))) as Hb.
  rewrite to_of_micro in Hb. unfold DAY_US in *.
  assert (E : (1 <=? ordinal (of_micro (to_micro d + us)))
              && (ordinal (of_micro (to_micro d + us)) <=? MAXORDINAL) = true)
    by (rewrite andb_true_iff, !Z.leb_le; lia).
  rewrite E. eauto.
Qed.

(** The loop builds the chain of windows and ends within one iteration
    per calendar day of the range, and one more. *)
Lemma windows_loop_spec (end_date : datetime) (window_size : Z) :
  valid_time end_date ->
  1 <= window_size ->
  ordinal end_date + window_size < MAXORDINAL ->
  forall (fuel : nat) (current_start : datetime)
         (windows : list (datetime * datetime)),
    valid_time current_start ->
    1 <= ordinal current_start ->
    (ltb current_start end_date = false /\ (1 <= fuel)%nat) \/
    (Z.to_nat (ordinal end_date - ordinal current_start + 1) < fuel)%nat ->
    exists extra,
      windows_loop fuel current_start end_date window_size windows
        = Some (Ok (windows ++ extra)) /\
      tiles (to_micro current_start) (to_micro end_date) window_size extra.
Proof.
  intros He Hsize Hmax.
  induction fuel as [|fuel IH]; intros cs windows Hcs Hocs Hfuel.
  { destruct Hfuel as [[_ H]|H]; inversion H. }
  simpl windows_loop. destruct (ltb cs end_date) eqn:Hlt.
  2:{ exists []. rewrite app_nil_r. split; [reflexivity|]. simpl.
      assert (~ to_micro cs < to_micro end_date).
      { intros H. apply (ltb_to_micro cs end_date Hcs He) in H. congruence. }
      lia. }
  apply (ltb_to_micro cs end_date Hcs He) in Hlt.
  destruct Hfuel as [[Hno _]|Hfuel].
  { apply (ltb_to_micro cs end_date Hcs He) in Hlt. congruence. }
  pose proof (to_micro_ordinal cs Hcs) as Hbcs.
  pose proof (to_micro_ordinal end_date He) as Hbe.
  assert (Hord : ordinal cs <= ordinal end_date) by (unfold DAY_US in *; lia).
  destruct (add_timedelta_in_range cs (window_size * DAY_US)) as [shifted Hsh].
  { unfold DAY_US, MAXORDINAL in *. lia. }
  rewrite Hsh. apply add_timedelta_ok in Hsh as (Htsh & Hvsh & _).
  destruct (py_min_to_micro shifted end_date Hvsh He) as [Hvwe Htwe].
  rewrite Htsh in Htwe.
  destruct (add_timedelta_in_range (py_min shifted end_date) SECOND_US)
    as [next Hnext].
  { rewrite Htwe. unfold DAY_US, SECOND_US, MAXORDINAL in *. lia. }
  rewrite Hnext. apply add_timedelta_ok in Hnext as (Htn & Hvn & Hon).
  destruct (IH next (windows ++ [(cs, py_min shifted end_date)]) Hvn)
    as (extra & Hrun & Htiles).
  { lia. }
  { pose proof (to_micro_ordinal next Hvn) as Hbn.
    destruct (Z.le_gt_cases (to_micro end_date)
                            (to_micro cs + window_size * DAY_US)) as [Hcap|Hcap].
    - left. split; [|lia].
      destruct (ltb next end_date) eqn:E; [|reflexivity].
      apply (ltb_to_micro next end_date Hvn He) in E.
      unfold SECOND_US in *. lia.
    - right. unfold DAY_US, SECOND_US in *. 
      assert (ordinal cs + window_size <= ordinal next) by lia.
      lia. }
  exists ((cs, py_min shifted end_date) :: extra).
  rewrite <- app_assoc in Hrun. split; [exact Hrun|].
  rewrite Htn in Htiles. simpl.
  split; [exact Hcs|]. split; [exact Hvwe|]. split; [reflexivity|].
  split; [exact Hlt|]. split; [exact Htwe|exact Htiles].
Qed.

(** For a window size of at least one day, [generate_date_windows]
    returns the chain of windows that starts at [start_date]: each window
    runs for [window_size] days, or up to [end_date] if that comes first,
    and the next one starts one second after it ends.  One iteration per
    calendar day of the range, and one more, always suffice. *)
Theorem generate_date_windows_tiles (fuel : nat)
    (start_date end_date : datetime) (window_size : Z) :
  valid_time start_date -> valid_time end_date ->
  1 <= ordinal start_date ->
  1 <= window_size ->
  ordinal end_date + window_size < MAXORDINAL ->
  (Z.to_nat (ordinal end_date - ordinal start_date + 1) < fuel)%nat ->
  exists ws,
    generate_date_windows fuel start_date end_date window_size = Some (Ok ws) /\
    tiles (to_micro start_date) (to_micro end_date) window_size ws.
Proof.
  intros Hs He Hos Hsize Hmax Hfuel.
  destruct (windows_loop_spec end_date window_size He Hsize Hmax fuel
              start_date [] Hs Hos) as (extra & Hrun & Htiles); [now right|].
  exists extra. split; assumption.
Qed.

Lemma generate_date_windows_tiles_witness :
  generate_date_windows 20 (midnight 2024 1 1) (midnight 2024 1 15) 7
    = Some (Ok [(midnight 2024 1 1, midnight 2024 1 8);
                (mk_datetime (ymd2ord 2024 1 8) 0 0 1 0,
                 mk_datetime (ymd2ord 2024 1 15) 0 0 0 0)]) /\
  exists ws,
    generate_date_windows 20 (midnight 2024 1 1) (midnight 2024 1 15) 7
      = Some (Ok ws) /\
    tiles (to_micro (midnight 2024 1 1)) (to_micro (midnight 2024 1 15)) 7 ws.
Proof.
  split; [vm_compute; reflexivity|].
  apply (generate_date_windows_tiles 20 (midnight 2024 1 1) (midnight 2024 1 15) 7).
  - unfold valid_time; simpl; lia.
  - unfold valid_time; simpl; lia.
  - vm_compute. discriminate.
  - lia.
  - vm_compute. reflexivity.
  - vm_compute. lia.
Defined.

Lemma tiles_within (e window_size : Z) (ws : list (datetime * datetime)) :
  1 <= window_size ->
  forall cs,
    tiles cs e window_size ws ->
    Forall (fun w =>
              cs <= to_micro (fst w) /\
              to_micro (fst w) < to_micro (snd w) <= e /\
              to_micro (snd w) - to_micro (fst w) <= window_size * DAY_US) ws /\
    StronglySorted
      (fun w1 w2 => to_micro (snd w1) + SECOND_US <= to_micro (fst w2)) ws /\
    (cs < e -> ws <> []) /\
    (forall d, ws <> [] ->
       e - SECOND_US <= to_micro (snd (last ws d)) <= e).
Proof.
  intros Hsize. induction ws as [|[a b] ws IH]; intros cs Ht; simpl in Ht.
  - split; [constructor|]. split; [constructor|]. split.
    + intros H. lia.
    + intros d H. now elim H.
  - destruct Ht as (Ha & Hb & Hta & Hlt & Htb & Hrest).
    destruct (IH _ Hrest) as (Hall & Hsorted & Hne & Hlast).
    assert (Hstep : to_micro a < to_micro b)
      by (unfold DAY_US in *; lia).
    split; [|split; [|split]].
    + constructor; [simpl; unfold DAY_US in *; lia|].
      revert Hall. apply Forall_impl. intros w (H1 & H2 & H3).
      unfold SECOND_US in *. repeat split; lia.
    + constructor; [assumption|].
      revert Hall. apply Forall_impl. intros w (H1 & _). simpl. lia.
    + discriminate.
    + intros d _. destruct ws as [|w ws'].
      * simpl. simpl in Hrest. unfold SECOND_US in *. lia.
      * change (last ((a, b) :: w :: ws') d) with (last (w :: ws') d).
        apply Hlast. discriminate.
Qed.

(** The windows returned lie within the range, each at most
    [window_size] days long and not empty, in order and at least one
    second apart; the first starts at [start_date], and the last ends at
    [end_date] or at most one second before it. *)
Theorem generate_date_windows_cover (fuel : nat)
    (start_date end_date : datetime) (window_size : Z)
    (ws : list (datetime * datetime)) :
  valid_time start_date -> valid_time end_date ->
  1 <= ordinal start_date ->
  1 <= window_size ->
  ordinal end_date + window_size < MAXORDINAL ->
  ltb start_date end_date = true ->
  generate_date_windows fuel start_date end_date window_size = Some (Ok ws) ->
  Forall (fun w =>
            to_micro start_date <= to_micro (fst w) /\
            to_micro (fst w) < to_micro (snd w) <= to_micro end_date /\
            to_micro (snd w) - to_micro (fst w) <= window_size * DAY_US) ws /\
  StronglySorted
    (fun w1 w2 => to_micro (snd w1) + SECOND_US <= to_micro (fst w2)) ws /\
  (exists w rest, ws = w :: rest /\ fst w = start_date) /\
  to_micro end_date - SECOND_US
    <= to_micro (snd (last ws (start_date, start_date)))
    <= to_micro end_date.
Proof.
  intros Hs He Hos Hsize Hmax Hlt Hrun.
  assert (Htiles : tiles (to_micro start_date) (to_micro end_date) window_size ws).
  { destruct (windows_loop_spec end_date window_size He Hsize Hmax
                (S (S (Z.to_nat (ordinal end_date - ordinal start_date + 1)))
                   + fuel)
                start_date [] Hs Hos) as (extra & Hrun' & Htiles);
      [right; lia|].
    assert (Hmono : forall f1 cs acc r,
              windows_loop f1 cs end_date window_size acc = Some r ->
              forall f2, (f1 <= f2)%nat ->
              windows_loop f2 cs end_date window_size acc = Some r).
    { clear. induction f1 as [|f1 IH]; intros cs acc r H f2 Hle; [discriminate|].
      destruct f2 as [|f2]; [inversion Hle|].
      simpl in *. destruct (ltb cs end_date); [|assumption].
      destruct (add_timedelta cs (window_size * DAY_US)); [|assumption].
      destruct (add_timedelta (py_min a end_date) SECOND_US); [|assumption].
      apply (IH _ _ _ H). lia. }
    unfold generate_date_windows in Hrun.
    rewrite (Hmono _ _ _ _ Hrun _ (Nat.le_add_l _ _)) in Hrun'.
    injection Hrun' as ->. exact Htiles. }
  apply (ltb_to_micro start_date end_date Hs He) in Hlt.
  destruct (tiles_within _ _ ws Hsize _ Htiles) as (Hall & Hsorted & Hne & Hlast).
  split; [exact Hall|]. split; [exact Hsorted|]. split.
  - destruct ws as [|[a b] rest]; [now elim (Hne Hlt)|].
    exists (a, b), rest. split; [reflexivity|].
    simpl in Htiles. destruct Htiles as (Ha & _ & Hta & _).
    simpl. now apply to_micro_inj.
  - apply Hlast. now apply Hne.
Qed.

(** A range that ends half a second after a window boundary: the last
    window stops at the boundary, short of [end_date]. *)
Lemma generate_date_windows_cover_witness :
  let start_date := midnight 2024 1 1 in
  let end_date := mk_datetime (ymd2ord 2024 1 8) 0 0 0 500000 in
  exists ws,
    generate_date_windows 20 start_date end_date 7 = Some (Ok ws) /\
    ws = [(midnight 2024 1 1, midnight 2024 1 8)] /\
    to_micro end_date - SECOND_US
      <= to_micro (snd (last ws (start_date, start_date)))
      <= to_micro end_date /\
    to_micro (snd (last ws (start_date, start_date))) < to_micro end_date.
Proof.
  intros start_date end_date.
  exists [(midnight 2024 1 1, midnight 2024 1 8)].
  split; [vm_compute; reflexivity|]. split; [reflexivity|]. split.
  - apply (generate_date_windows_cover 20 start_date end_date 7
             [(midnight 2024 1 1, midnight 2024 1 8)]).
    + unfold valid_time; simpl; lia.
    + unfold valid_time; simpl; lia.
    + vm_compute. discriminate.
    + lia.
    + vm_compute. reflexivity.
    + reflexivity.
    + vm_compute. reflexivity.
  - vm_compute. reflexivity.
Defined.

End DateWindows.

(** ** What the scheduler does with the files *)

Section SchedulerFiles.
Import Random ReactProjectScanner SchedulerState Scenarios.

Lemma key_eqb_eq (a b : group_key) : key_eqb a b = true <-> a = b.
Proof.
  destruct a as [a1 a2], b as [b1 b2]. unfold key_eqb; simpl.
  rewrite andb_true_iff, !String.eqb_eq. split.
  - intros [-> ->]. reflexivity.
  - intros H. injection H as -> ->. now split.
Qed.

Lemma key_eqb_refl (a : group_key) : key_eqb a a = true.
Proof. now apply key_eqb_eq. Qed.

Lemma setdefault_keys (key : group_key) (file : FileInfo) (g : groups)
    (k : group_key) :
  In k (map fst (setdefault_append key file g)) -> k = key \/ In k (map fst g).
Proof.
  induction g as [|[k0 v] rest IH]; simpl.
  - intros [<-|[]]. now left.
  - destruct (key_eqb k0 key); simpl.
    + intros [<-|H]; auto.
    + intros [<-|H]; auto. destruct (IH H); auto.
Qed.

Lemma setdefault_nodup (key : group_key) (file : FileInfo) (g : groups) :
  NoDup (map fst g) -> NoDup (map fst (setdefault_append key file g)).
Proof.
  induction g as [|[k0 v] rest IH]; simpl; intros Hnd.
  - repeat constructor. auto.
  - inversion Hnd as [|? ? Hnotin Hnd']; subst.
    destruct (key_eqb k0 key) eqn:E; simpl; [assumption|].
    constructor; [|now apply IH].
    intros Hin. apply setdefault_keys in Hin as [->|Hin]; [|contradiction].
    now rewrite key_eqb_refl in E.
Qed.

Lemma setdefault_of_group (file : FileInfo) (g : groups) :
  Forall (fun kv => of_group (fst kv) (snd kv)) g ->
  Forall (fun kv => of_group (fst kv) (snd kv))
         (setdefault_append (file_key file) file g).
Proof.
  induction 1 as [|[k0 v] rest Hv Hrest IH]; simpl.
  - repeat constructor.
  - destruct (key_eqb k0 (file_key file)) eqn:E.
    + apply key_eqb_eq in E. constructor; [|assumption]. simpl in *.
      apply Forall_app. split; [assumption|]. repeat constructor. now symmetry.
    + constructor; assumption.
Qed.

Lemma setdefault_remaining (key : group_key) (file : FileInfo) (g : groups) :
  Permutation (remaining (setdefault_append key file g)) (remaining g ++ [file]).
Proof.
  unfold remaining. induction g as [|[k0 v] rest IH]; simpl; [reflexivity|].
  destruct (key_eqb k0 key); simpl.
  - rewrite <- !app_assoc. apply Permutation_app_head, Permutation_app_comm.
  - rewrite <- app_assoc. now apply Permutation_app_head.
Qed.

Lemma group_by_type_consistent (fs : list FileInfo) :
  consistent fs (group_by_type fs) [].
Proof.
  assert (H : forall acc,
            NoDup (map fst acc) ->
            Forall (fun kv => of_group (fst kv) (snd kv)) acc ->
            let g := fold_left
                       (fun g file =>
                          setdefault_append (type file, category file) file g)
                       fs acc in
            NoDup (map fst g) /\
            Forall (fun kv => of_group (fst kv) (snd kv)) g /\
            Permutation (remaining g) (remaining acc ++ fs)).
  { induction fs as [|f fs IH]; intros acc Hnd Hg; simpl.
    - rewrite app_nil_r. auto.
    - destruct (IH (setdefault_append (type f, category f) f acc))
        as (H1 & H2 & H3).
      + now apply setdefault_nodup.
      + now apply (setdefault_of_group f).
      + split; [assumption|]. split; [assumption|].
        rewrite H3, setdefault_remaining, <- app_assoc. reflexivity. }
  destruct (H [] (NoDup_nil _) (Forall_nil _)) as (H1 & H2 & H3).
  unfold consistent, group_by_type. repeat split; auto.
Qed.

Lemma setitem_split (key : group_key) (v v' : list FileInfo) (g : groups) :
  NoDup (map fst g) -> In (key, v) g ->
  exists g1 g2, g = g1 ++ (key, v) :: g2 /\ setitem key v' g = g1 ++ (key, v') :: g2.
Proof.
  induction g as [|[k0 v0] rest IH]; simpl; intros Hnd Hin; [contradiction|].
  inversion Hnd as [|? ? Hnotin Hnd']; subst.
  destruct Hin as [Heq|Hin].
  - injection Heq as -> ->. rewrite key_eqb_refl. now exists [], rest.
  - destruct (key_eqb k0 key) eqn:E.
    + apply key_eqb_eq in E; subst k0. exfalso. apply Hnotin.
      now apply (in_map fst) in Hin.
    + destruct (IH Hnd' Hin) as (g1 & g2 & -> & ->).
      now exists ((k0, v0) :: g1), g2.
Qed.

(** One commit taken from a chosen group keeps the state consistent. *)
Lemma take_commit_consistent (fs : list FileInfo) (g : groups)
    (commits : list commit) (chosen : group_key * list FileInfo)
    (n : Z) (t : datetime) :
  consistent fs g commits ->
  In chosen g ->
  1 <= n <= Z.min 5 (len (snd chosen)) ->
  consistent fs
    (setitem (fst chosen) (skipn (Z.to_nat n) (snd chosen)) g)
    (commits ++ [(t, firstn (Z.to_nat n) (snd chosen))]).
Proof.
  intros (Hnd & Hg & Hperm & Hshape) Hin Hn.
  destruct chosen as [key v]. simpl in *.
  destruct (setitem_split key v (skipn (Z.to_nat n) v) g Hnd Hin)
    as (g1 & g2 & -> & ->).
  assert (Hv : of_group key v).
  { rewrite Forall_forall in Hg. apply (Hg (key, v)).
    apply in_or_app. right. now left. }
  unfold consistent. split; [|split; [|split]].
  - rewrite map_app in *. exact Hnd.
  - apply Forall_app in Hg as [Hg1 Hg2]. apply Forall_app. split; [assumption|].
    inversion Hg2; subst. constructor; [|assumption]. simpl.
    unfold of_group in *. rewrite <- (firstn_skipn (Z.to_nat n) v) in Hv.
    apply Forall_app in Hv. tauto.
  - rewrite <- Hperm. unfold committed, remaining.
    rewrite !map_app, !concat_app. simpl. rewrite !app_nil_r.
    rewrite <- (firstn_skipn (Z.to_nat n) v) at 3.
    rewrite <- !app_assoc. apply Permutation_app_head.
    rewrite !app_assoc. apply Permutation_app_tail.
    rewrite <- !app_assoc. apply Permutation_app_swap_app.
  - apply Forall_app. split; [assumption|]. repeat constructor; simpl.
    + unfold len in *. rewrite length_firstn. lia.
    + unfold len in *. rewrite length_firstn. lia.
    + exists key. unfold of_group in *.
      rewrite <- (firstn_skipn (Z.to_nat n) v) in Hv.
      apply Forall_app in Hv. tauto.
Qed.

(** A property of the groups and commits that every commit taken keeps
    is kept by the loop of one day. *)
Lemma day_loop_preserves (I : groups -> list commit -> Prop)
    (current_date : datetime) :
  (forall g commits chosen n t,
     I g commits -> In chosen g ->
     1 <= n <= Z.min 5 (len (snd chosen)) ->
     I (setitem (fst chosen) (skipn (Z.to_nat n) (snd chosen)) g)
       (commits ++ [(t, firstn (Z.to_nat n) (snd chosen))])) ->
  forall (n : nat) (type_groups : groups) (commits : list commit),
    I type_groups commits ->
    ensures (day_loop n current_date type_groups commits)
            (fun r => I (fst r) (snd r)).
Proof.
  intros Hstep. induction n as [|n IH]; intros type_groups commits HI.
  - now apply ensures_ret.
  - simpl day_loop. destruct (any_files type_groups) eqn:Hany; simpl negb; cbv iota;
      [|now apply ensures_ret].
    destruct (filter (fun kv => nonempty (snd kv)) type_groups)
      as [|p available] eqn:Hav.
    { exfalso. now apply (any_files_available type_groups Hany). }
    simpl negb; cbv iota.
    apply (ensures_bind _ _ (fun x => In x (p :: available)));
      [apply ensures_choice; discriminate|].
    intros chosen Hin. rewrite <- Hav in Hin.
    apply filter_In in Hin as [Hin Hne].
    assert (Hlen : 1 <= len (snd chosen)).
    { destruct (snd chosen); [discriminate|]. unfold len; simpl List.length. lia. }
    apply (ensures_bind _ _ (fun x => 1 <= x <= Z.min 5 (len (snd chosen))));
      [apply ensures_randint; lia|].
    intros files_count Hfc.
    apply (ensures_bind _ _ (fun x => 9 <= x <= 18));
      [apply ensures_randint; lia|].
    intros h Hh.
    apply (ensures_bind _ _ (fun x => 0 <= x <= 59));
      [apply ensures_randint; lia|].
    intros m Hm.
    rewrite (replace_working_hours current_date h m Hh Hm).
    apply (ensures_bind _ _ (fun _ => True)); [now apply ensures_ret|].
    intros commit_time _. apply IH. now apply Hstep.
Qed.

Lemma date_loop_preserves (I : groups -> list commit -> Prop) (sc : Scanner) :
  (forall g commits chosen n t,
     I g commits -> In chosen g ->
     1 <= n <= Z.min 5 (len (snd chosen)) ->
     I (setitem (fst chosen) (skipn (Z.to_nat n) (snd chosen)) g)
       (commits ++ [(t, firstn (Z.to_nat n) (snd chosen))])) ->
  forall (fuel : nat) (current_date : datetime) (type_groups : groups)
         (commits cs : list commit) (g g' : Rng),
    I type_groups commits ->
    date_loop fuel sc current_date type_groups commits g = Some (Ok cs, g') ->
    exists type_groups', I type_groups' cs.
Proof.
  intros Hstep.
  induction fuel as [|fuel IH]; intros cur type_groups commits cs g g' HI H;
    [discriminate|].
  simpl date_loop in H. destruct (leb cur (end_date sc)).
  2:{ injection H as <- _. eauto. }
  unfold bind in H.
  destruct (randint 1 (commits_per_day sc) g) as [[d|e] g0]; [|discriminate].
  destruct (day_loop_preserves I cur Hstep (Z.to_nat d) type_groups commits HI g0)
    as ([groups' commits'] & g1 & Hrun & HI').
  rewrite Hrun in H. simpl in HI'.
  destruct (add_days cur 1) as [next|e]; [|discriminate].
  now apply (IH _ _ _ _ _ _ HI' H).
Qed.

Lemma commits_no_more_than_files (cs : list commit) :
  Forall (fun c => 1 <= len (snd c)) cs ->
  (List.length cs <= List.length (committed cs))%nat.
Proof.
  unfold committed.
  induction 1 as [|c cs Hc _ IH]; simpl; [auto|].
  rewrite length_app. unfold len in Hc. lia.
Qed.

(** No file is lost, invented or committed twice: the files of the
    commits, with those left uncommitted, are the scanned files, so there
    are never more commits than files. *)
Theorem prepare_commits_conserves_files (sc : Scanner) (g g' : Rng)
    (cs : list commit) :
  prepare_commits sc g = Some (Ok cs, g') ->
  (exists leftover, Permutation (committed cs ++ leftover) (files sc)) /\
  (List.length cs <= List.length (files sc))%nat.
Proof.
  unfold prepare_commits.
  destruct (negb (nonempty (files sc))); [discriminate|].
  intros H.
  apply (date_loop_preserves (consistent (files sc)) sc) in H
    as (final & Hnd & Hg & Hperm & Hshape).
  - split; [now exists (remaining final)|].
    apply Nat.le_trans with (List.length (committed cs)).
    + apply commits_no_more_than_files. revert Hshape.
      apply Forall_impl. intros c [Hc _]. lia.
    + rewrite <- (Permutation_length Hperm), length_app. lia.
  - intros; now apply take_commit_consistent.
  - apply group_by_type_consistent.
Qed.

Lemma prepare_commits_conserves_files_witness :
  exists cs g',
    prepare_commits monday_scanner (of_draws [1]) = Some (Ok cs, g') /\
    (exists leftover, Permutation (committed cs ++ leftover) (files monday_scanner)) /\
    (List.length cs <= List.length (files monday_scanner))%nat.
Proof.
  eexists. eexists. split; [reflexivity|].
  apply (prepare_commits_conserves_files monday_scanner (of_draws [1])
           {| draws := fun i => nth i [1] 0; pos := 9 |}).
  reflexivity.
Defined.

(** Every commit holds between one and five files, all of one type and
    category. *)
Theorem prepare_commits_groups_files (sc : Scanner) (g g' : Rng)
    (cs : list commit) :
  prepare_commits sc g = Some (Ok cs, g') ->
  Forall (fun c =>
            1 <= len (snd c) <= 5 /\
            exists k, Forall (fun file => (type file, category file) = k) (snd c))
         cs.
Proof.
  unfold prepare_commits.
  destruct (negb (nonempty (files sc))); [discriminate|].
  intros H.
  apply (date_loop_preserves (consistent (files sc)) sc) in H
    as (final & _ & _ & _ & Hshape).
  - exact Hshape.
  - intros; now apply take_commit_consistent.
  - apply group_by_type_consistent.
Qed.

Lemma prepare_commits_groups_files_witness :
  exists cs g',
    prepare_commits monday_scanner (of_draws [1]) = Some (Ok cs, g') /\
    Forall (fun c =>
              1 <= len (snd c) <= 5 /\
              exists k, Forall (fun file => (type file, category file) = k) (snd c))
           cs.
Proof.
  eexists. eexists. split; [reflexivity|].
  apply (prepare_commits_groups_files monday_scanner (of_draws [1])
           {| draws := fun i => nth i [1] 0; pos := 9 |}).
  reflexivity.
Defined.

(** *** How many commits a day *)

Lemma on_ordinal_same (o : Z) (l : list commit) :
  Forall (fun c => ordinal (fst c) = o) l -> on_ordinal o l = l.
Proof.
  unfold on_ordinal. induction 1 as [|c l Hc _ IH]; simpl; [reflexivity|].
  rewrite Hc, Z.eqb_refl. now rewrite IH.
Qed.

Lemma on_ordinal_none (o : Z) (l : list commit) :
  Forall (fun c => ordinal (fst c) <> o) l -> on_ordinal o l = [].
Proof.
  unfold on_ordinal. induction 1 as [|c l Hc _ IH]; simpl; [reflexivity|].
  apply Z.eqb_neq in Hc. now rewrite Hc.
Qed.

Lemma date_loop_per_day (sc : Scanner) (fuel : nat) :
  forall (current_date : datetime) (type_groups : groups)
         (commits cs : list commit) (g g' : Rng),
    date_loop fuel sc current_date type_groups commits g = Some (Ok cs, g') ->
    exists extra,
      cs = commits ++ extra /\
      Forall (fun c => ordinal current_date <= ordinal (fst c)) extra /\
      forall o,
        (List.length (on_ordinal o extra) <= Z.to_nat (commits_per_day sc))%nat.
Proof.
  induction fuel as [|fuel IH]; intros cur type_groups commits cs g g' H;
    [discriminate|].
  simpl date_loop in H. destruct (leb cur (end_date sc)).
  2:{ injection H as <- _. exists []. rewrite app_nil_r.
      repeat split; [constructor|]. intros o. simpl. lia. }
  unfold bind in H.
  destruct (randint 1 (commits_per_day sc) g) as [[d|e] g0] eqn:Hd;
    [|discriminate].
  apply randint_inv in Hd.
  destruct (day_loop_spec (Z.to_nat d) cur type_groups commits g0)
    as ([groups' commits'] & g1 & Hrun & today & Hsnd & Htoday & Hlen & _).
  rewrite Hrun in H. simpl in Hsnd. subst commits'.
  destruct (add_days cur 1) as [next|e] eqn:Hnext; [|discriminate].
  apply add_days_ok in Hnext as [Hnext _].
  apply IH in H as (later & -> & Hlater & Hday).
  exists (today ++ later). rewrite app_assoc. split; [reflexivity|]. split.
  - apply Forall_app. split.
    + revert Htoday. apply Forall_impl. intros c (Ho & _). lia.
    + revert Hlater. apply Forall_impl. intros c Ho. lia.
  - intros o.
    replace (on_ordinal o (today ++ later))
      with (on_ordinal o today ++ on_ordinal o later)
      by (symmetry; apply filter_app).
    rewrite length_app.
    destruct (Z.eq_dec o (ordinal cur)) as [->|Hne].
    + rewrite (on_ordinal_none (ordinal cur) later).
      * rewrite on_ordinal_same; [simpl; lia|].
        revert Htoday. apply Forall_impl. now intros c (Ho & _).
      * revert Hlater. apply Forall_impl. intros c Ho. lia.
    + rewrite (on_ordinal_none o today).
      * simpl. apply Hday.
      * revert Htoday. apply Forall_impl. intros c (Ho & _). lia.
Qed.

(** No calendar day receives more than [commits_per_day] commits. *)
Theorem prepare_commits_daily_limit (sc : Scanner) (g g' : Rng)
    (cs : list commit) (o : Z) :
  prepare_commits sc g = Some (Ok cs, g') ->
  (List.length (on_ordinal o cs) <= Z.to_nat (commits_per_day sc))%nat.
Proof.
  unfold prepare_commits.
  destruct (negb (nonempty (files sc))); [discriminate|].
  intros H. apply date_loop_per_day in H as (extra & -> & _ & Hday).
  apply Hday.
Qed.

Lemma prepare_commits_daily_limit_witness :
  exists cs g',
    prepare_commits monday_scanner (of_draws [1]) = Some (Ok cs, g') /\
    (List.length (on_ordinal (ordinal monday) cs) <= 2)%nat.
Proof.
  eexists. eexists. split; [reflexivity|].
  apply (prepare_commits_daily_limit monday_scanner (of_draws [1])
           {| draws := fun i => nth i [1] 0; pos := 9 |}).
  reflexivity.
Defined.

(** With files to commit, at least one commit allowed per day and a
    window that ends before the last representable day, the scheduler
    returns a schedule: nothing raises. *)
Theorem prepare_commits_succeeds (sc : Scanner) (g : Rng) :
  nonempty (files sc) = true ->
  1 <= commits_per_day sc ->
  1 <= ordinal (start_date sc) ->
  ordinal (end_date sc) < MAXORDINAL ->
  exists cs g', prepare_commits sc g = Some (Ok cs, g').
Proof.
  intros Hfiles Hcpd Hstart Hend.
  destruct (prepare_commits_terminates sc g) as [[r g'] Hrun].
  pose proof Hrun as Hrun'.
  unfold prepare_commits in Hrun'. rewrite Hfiles in Hrun'. cbn [negb] in Hrun'.
  destruct (date_loop_no_raise sc _ Hcpd Hend _ _ _ _ _ _ Hstart Hrun')
    as [cs ->].
  eauto.
Qed.

Lemma prepare_commits_succeeds_witness :
  exists cs g', prepare_commits monday_scanner (of_draws [1; 4; 1; 5; 9]) = Some (Ok cs, g').
Proof.
  apply (prepare_commits_succeeds monday_scanner).
  - reflexivity.
  - simpl. lia.
  - vm_compute. discriminate.
  - vm_compute. reflexivity.
Defined.

End SchedulerFiles.

(** ** Active contributors *)

Section ActiveContributors.
Import ContributionAnalyzer AnalysisService MoreScenarios.

Lemma author_activity_tally (commits : list json) (authors : list hkey)
    (acc : counts) :
  mapM author_key commits = Ok authors ->
  author_activity_loop commits acc = Ok (tally authors acc).
Proof.
  intros H. apply mapM_Forall2 in H. revert acc.
  induction H as [|c a commits authors Hca _ IH]; intros acc; simpl.
  - reflexivity.
  - unfold author_key in Hca.
    destruct (py_getitem c "author") as [v|]; simpl in *; [|discriminate].
    rewrite Hca; simpl. apply IH.
Qed.

Lemma strongly_sorted_keys (f : hkey -> Z) (l : list (hkey * Z)) :
  StronglySorted desc l ->
  (forall a n, In (a, n) l -> n = f a) ->
  StronglySorted (fun a b => f b <= f a) (map fst l).
Proof.
  induction 1 as [|[a n] l Hs IH Hall]; intros Hf; simpl; constructor.
  - apply IH. intros b m Hb. apply Hf. now right.
  - apply Forall_map. rewrite Forall_forall in *. intros [b m] Hb. simpl.
    rewrite <- (Hf a n) by now left.
    rewrite <- (Hf b m) by now right.
    exact (Hall (b, m) Hb).
Qed.

(** The ranking names every author of the commits exactly once, the
    authors of more commits first. *)
Theorem active_contributors_ranking (commits : list json) (authors : list hkey) :
  mapM author_key commits = Ok authors ->
  exists ranking,
    identify_active_contributors commits = Ok ranking /\
    NoDup ranking /\
    (forall a, In a ranking <-> In a authors) /\
    StronglySorted (fun a b => occurrences b authors <= occurrences a authors)
                   ranking.
Proof.
  intros Hm.
  pose proof (sorted_desc_perm (tally authors [])) as Hperm.
  assert (Hkeys : Permutation (map fst (sorted_desc (tally authors [])))
                              (first_seen [] authors)).
  { pose proof (keys_tally authors []) as Hk. simpl in Hk.
    rewrite <- Hk. now apply Permutation_map. }
  exists (map fst (sorted_desc (tally authors []))).
  split; [|split; [|split]].
  - unfold identify_active_contributors, _calculate_author_activity.
    now rewrite (author_activity_tally commits authors [] Hm).
  - apply (Permutation_NoDup (Permutation_sym Hkeys)).
    apply first_seen_nodup. constructor.
  - intros a. split; intros H.
    + apply (Permutation_in _ Hkeys) in H.
      destruct (first_seen_in_inv [] authors a H) as [[]|]; assumption.
    + apply (Permutation_in _ (Permutation_sym Hkeys)).
      apply first_seen_incl. now right.
  - apply strongly_sorted_keys; [apply sorted_desc_sorted|].
    intros a n Hin. apply tally_in_count.
    now apply (Permutation_in _ Hperm).
Qed.

Lemma active_contributors_ranking_witness :
  identify_active_contributors
    [local_commit "ana"; local_commit "bo"; local_commit "bo"]
    = Ok [KStr "bo"; KStr "ana"] /\
  exists ranking,
    identify_active_contributors
      [local_commit "ana"; local_commit "bo"; local_commit "bo"] = Ok ranking /\
    NoDup ranking /\
    (forall a, In a ranking <-> In a [KStr "ana"; KStr "bo"; KStr "bo"]) /\
    StronglySorted
      (fun a b => occurrences b [KStr "ana"; KStr "bo"; KStr "bo"]
                  <= occurrences a [KStr "ana"; KStr "bo"; KStr "bo"])
      ranking.
Proof.
  split; [reflexivity|].
  apply (active_contributors_ranking
           [local_commit "ana"; local_commit "bo"; local_commit "bo"]).
  reflexivity.
Defined.

(** A commit whose author cannot be read, for want of the key
    ["author"], makes the count by author raise: nothing here stands in
    for a missing author. *)
Theorem author_activity_needs_author (commits : list json) (commit : json)
    (x : exn) :
  In commit commits ->
  author_key commit = Raise x ->
  exists x', _calculate_author_activity commits = Raise x'.
Proof.
  intros Hin Hx. unfold _calculate_author_activity.
  generalize (@nil (hkey * Z)) as acc.
  induction commits as [|c commits IH]; intros acc; [contradiction|].
  simpl. destruct Hin as [->|Hin].
  - unfold author_key in Hx.
    destruct (py_getitem commit "author") as [v|]; simpl in *; [|eauto].
    rewrite Hx. simpl. eauto.
  - destruct (py_getitem c "author") as [v|]; simpl; [|eauto].
    destruct (hash_key v); simpl; [now apply IH|eauto].
Qed.

Lemma author_activity_needs_author_witness :
  author_key (JObj [("hash", JStr "0a1b2c")]) = Raise KeyError /\
  exists x',
    _calculate_author_activity
      [local_commit "ana"; JObj [("hash", JStr "0a1b2c")]] = Raise x'.
Proof.
  split; [reflexivity|].
  apply (author_activity_needs_author _ (JObj [("hash", JStr "0a1b2c")]) KeyError).
  - right. left. reflexivity.
  - reflexivity.
Defined.

End ActiveContributors.

(** ** The pattern generator *)

Section Pattern.
Import PatternGenerator MoreScenarios.

Lemma range_nodup (n : Z) : NoDup (range n).
Proof.
  unfold range. generalize (seq_NoDup (Z.to_nat n) 0).
  generalize (seq 0 (Z.to_nat n)) as l.
  induction l as [|a l IH]; intros Hnd; simpl; [constructor|].
  inversion Hnd as [|? ? Hnotin Hnd']; subst.
  constructor; [|now apply IH].
  intros Hin. apply in_map_iff in Hin as (b & Hb & Hin).
  apply Nat2Z.inj in Hb. now subst.
Qed.

Lemma flat_map_nodup {A B : Type} (f : A -> list B) (l : list A) :
  NoDup l ->
  (forall a, In a l -> NoDup (f a)) ->
  (forall a a' b, In a l -> In a' l -> In b (f a) -> In b (f a') -> a = a') ->
  NoDup (flat_map f l).
Proof.
  induction 1 as [|a l Hnotin Hnd IH]; intros Hin Hdisj; simpl; [constructor|].
  apply NoDup_app.
  - apply Hin. now left.
  - apply IH.
    + intros a' Ha'. apply Hin. now right.
    + intros a1 a2 b H1 H2. apply Hdisj; now right.
  - intros b Hb Hb'. apply in_flat_map in Hb' as (a' & Ha' & Hb').
    assert (a = a') by (apply (Hdisj a a' b); auto; [now left|now right]).
    now subst.
Qed.

Lemma cell_date_inj (x y x' y' : Z) :
  0 <= y < 7 -> 0 <= y' < 7 ->
  cell_date x y = cell_date x' y' -> x = x' /\ y = y'.
Proof.
  intros Hy Hy' H.
  assert (Ho : ordinal START_DATE + (x * 7 + y)
               = ordinal START_DATE + (x' * 7 + y'))
    by exact (f_equal ordinal H).
  lia.
Qed.

(** On a 52 by 7 image, each dark pixel is committed once, on a date of
    its own: the pixel of column [x] and row [y] on the day [7x + y]
    after the start date, whose weekday is [y]. *)
Theorem pattern_commits_cells (img : Image) :
  width img = 52 -> height img = 7 ->
  exists dates,
    pattern_commits img = Ok dates /\
    NoDup dates /\
    (forall d,
       In d dates <->
       exists x y, 0 <= x < 52 /\ 0 <= y < 7 /\ getpixel img x y < 128 /\
                   d = cell_date x y) /\
    (forall x y, 0 <= y < 7 -> weekday (cell_date x y) = y).
Proof.
  intros Hw Hh. unfold pattern_commits. rewrite Hw, Hh.
  change (negb (52 =? 52) || negb (7 =? 7)) with false. cbv iota.
  eexists. split; [reflexivity|]. split; [|split].
  - apply flat_map_nodup.
    + apply range_nodup.
    + intros y Hy. apply flat_map_nodup.
      * apply range_nodup.
      * intros x _. destruct (getpixel img x y <? 128); repeat constructor. auto.
      * intros x x' d _ _ Hd Hd'.
        destruct (getpixel img x y <? 128); [|contradiction].
        destruct (getpixel img x' y <? 128); [|contradiction].
        destruct Hd as [<-|[]]. destruct Hd' as [Hd'|[]].
        apply in_range in Hy.
        now destruct (cell_date_inj x' y x y Hy Hy Hd').
    + intros y y' d Hy Hy' Hd Hd'. apply in_range in Hy, Hy'.
      apply in_flat_map in Hd as (x & _ & Hd), Hd' as (x' & _ & Hd').
      destruct (getpixel img x y <? 128); [|contradiction].
      destruct (getpixel img x' y' <? 128); [|contradiction].
      destruct Hd as [<-|[]]. destruct Hd' as [Hd'|[]].
      now destruct (cell_date_inj x' y' x y Hy' Hy Hd').
  - intros d. rewrite in_flat_map. split.
    + intros (y & Hy & Hd). apply in_flat_map in Hd as (x & Hx & Hd).
      apply in_range in Hy, Hx.
      destruct (getpixel img x y <? 128) eqn:E; [|contradiction].
      destruct Hd as [<-|[]]. apply Z.ltb_lt in E.
      exists x, y. repeat split; try lia.
    + intros (x & y & Hx & Hy & Hp & ->).
      exists y. split; [apply in_range; lia|].
      apply in_flat_map. exists x. split; [apply in_range; lia|].
      apply Z.ltb_lt in Hp. rewrite Hp. now left.
  - intros x y Hy.
    change (weekday (cell_date x y))
      with ((ordinal START_DATE + (x * 7 + y) + 6) mod 7).
    change (ordinal START_DATE) with 738886.
    replace (738886 + (x * 7 + y) + 6) with (y + (x + 105556) * 7) by lia.
    rewrite Z.mod_add by discriminate. apply Z.mod_small. lia.
Qed.

Lemma pattern_commits_cells_witness :
  pattern_commits diagonal
    = Ok (map (fun i => cell_date i i) [0; 1; 2; 3; 4; 5; 6]) /\
  exists dates,
    pattern_commits diagonal = Ok dates /\
    NoDup dates /\
    (forall d,
       In d dates <->
       exists x y, 0 <= x < 52 /\ 0 <= y < 7 /\ getpixel diagonal x y < 128 /\
                   d = cell_date x y) /\
    (forall x y, 0 <= y < 7 -> weekday (cell_date x y) = y).
Proof.
  split; [vm_compute; reflexivity|].
  apply (pattern_commits_cells diagonal); reflexivity.
Defined.

End Pattern.

(** ** Every day of the window is scheduled *)

Section SchedulerDays.
Import Random ReactProjectScanner SchedulerState Scenarios MoreScenarios.

Lemma at_day_self (d : datetime) : at_day d (ordinal d) = d.
Proof. destruct d; reflexivity. Qed.

Lemma at_day_next (d next : datetime) (n o : Z) :
  add_days d n = Ok next -> at_day next o = at_day d o.
Proof.
  unfold add_days.
  destruct ((1 <=? ordinal d + n) && (ordinal d + n <=? MAXORDINAL));
    [|discriminate].
  intros H; injection H as <-. reflexivity.
Qed.

(** A day no earlier than [current_date] that the loop reaches: the loop
    has not ended at [current_date]. *)
Lemma leb_at_day (current_date end_date : datetime) (o : Z) :
  ordinal current_date <= o ->
  leb (at_day current_date o) end_date = true ->
  leb current_date end_date = true.
Proof.
  intros Ho H.
  destruct (Z.eq_dec o (ordinal current_date)) as [->|Hne].
  - now rewrite at_day_self in H.
  - apply leb_ordinal in H. simpl in H.
    unfold leb, compare.
    replace (ordinal current_date ?= ordinal end_date) with Lt; [reflexivity|].
    symmetry. apply Z.compare_lt_iff. lia.
Qed.

Lemma before_day_app (o : Z) (l1 l2 : list commit) :
  before_day o (l1 ++ l2) = before_day o l1 ++ before_day o l2.
Proof. apply filter_app. Qed.

Lemma before_day_all (o : Z) (l : list commit) :
  Forall (fun c => ordinal (fst c) < o) l -> before_day o l = l.
Proof.
  induction 1 as [|c l Hc _ IH]; simpl; [reflexivity|].
  replace (ordinal (fst c) <? o) with true by (symmetry; now apply Z.ltb_lt).
  now rewrite IH.
Qed.

Lemma before_day_none (o : Z) (l : list commit) :
  Forall (fun c => o <= ordinal (fst c)) l -> before_day o l = [].
Proof.
  induction 1 as [|c l Hc _ IH]; simpl; [reflexivity|].
  replace (ordinal (fst c) <? o) with false by (symmetry; now apply Z.ltb_ge).
  exact IH.
Qed.

Lemma remaining_any_files (type_groups : groups) :
  remaining type_groups <> [] -> any_files type_groups = true.
Proof.
  unfold remaining, any_files.
  induction type_groups as [|[k v] rest IH]; simpl; [congruence|].
  destruct v as [|file v]; simpl; [|reflexivity].
  exact IH.
Qed.

(** When fewer files have been committed than were scanned, some group
    still holds a file. *)
Lemma consistent_any_files (fs : list FileInfo) (type_groups : groups)
    (commits : list commit) :
  consistent fs type_groups commits ->
  (List.length (committed commits) < List.length fs)%nat ->
  any_files type_groups = true.
Proof.
  intros (_ & _ & Hperm & _) Hlen.
  apply remaining_any_files. intros Hnil.
  apply Permutation_length in Hperm.
  rewrite length_app, Hnil in Hperm. simpl in Hperm. lia.
Qed.

Lemma date_loop_every_day (sc : Scanner) (fs : list FileInfo) (fuel : nat) :
  forall (current_date : datetime) (type_groups : groups)
         (commits cs : list commit) (g g' : Rng),
    consistent fs type_groups commits ->
    Forall (fun c => ordinal (fst c) < ordinal current_date) commits ->
    date_loop fuel sc current_date type_groups commits g = Some (Ok cs, g') ->
    forall o,
      ordinal current_date <= o ->
      leb (at_day current_date o) (end_date sc) = true ->
      (List.length (committed (before_day o cs)) < List.length fs)%nat ->
      exists c, In c cs /\ on_day (at_day current_date o) c.
Proof.
  induction fuel as [|fuel IH];
    intros cur type_groups commits cs g g' Hcons Hearlier H o Ho Hle Hlen;
    [discriminate|].
  simpl date_loop in H.
  rewrite (leb_at_day cur (end_date sc) o Ho Hle) in H.
  unfold bind in H.
  destruct (randint 1 (commits_per_day sc) g) as [[d|e] g0] eqn:Hd;
    [|discriminate].
  apply randint_inv in Hd.
  destruct (day_loop_spec (Z.to_nat d) cur type_groups commits g0)
    as ([groups' commits'] & g1 & Hrun & today & Hsnd & Htoday & _ & Hne).
  destruct (day_loop_preserves (consistent fs) cur
              (fun gr cm ch n t => take_commit_consistent fs gr cm ch n t)
              (Z.to_nat d) type_groups commits Hcons g0)
    as (r2 & g2 & Hrun2 & Hcons').
  rewrite Hrun in Hrun2. injection Hrun2 as <- <-.
  rewrite Hrun in H. simpl in Hsnd, Hcons'. subst commits'.
  destruct (add_days cur 1) as [next|e] eqn:Hnext; [|discriminate].
  pose proof (at_day_next cur next 1 o Hnext) as Hat.
  apply add_days_ok in Hnext as [Hnext _].
  destruct (Z.eq_dec o (ordinal cur)) as [->|Hlater].
  - apply date_loop_per_day in H as (later & -> & Hlater & _).
    replace (before_day (ordinal cur) ((commits ++ today) ++ later))
      with commits in Hlen.
    2:{ rewrite !before_day_app, (before_day_all _ _ Hearlier).
        rewrite (before_day_none _ today), (before_day_none _ later).
        - now rewrite !app_nil_r.
        - revert Hlater. apply Forall_impl. intros c Hc. lia.
        - revert Htoday. apply Forall_impl. intros c (Hc & _). lia. }
    pose proof (consistent_any_files fs type_groups commits Hcons Hlen) as Hany.
    destruct today as [|c today].
    { exfalso. apply (Hne Hany); [lia|reflexivity]. }
    exists c. split.
    + apply in_or_app. left. apply in_or_app. right. now left.
    + rewrite at_day_self. now inversion Htoday.
  - rewrite <- Hat.
    apply (IH next groups' (commits ++ today) cs g1 g' Hcons'); auto.
    + apply Forall_app. split.
      * revert Hearlier. apply Forall_impl. intros c Hc. lia.
      * revert Htoday. apply Forall_impl. intros c (Hc & _). lia.
    + lia.
    + now rewrite Hat.
Qed.

(** C1, amended.  The scheduler has no weekend policy and treats every
    day alike.  In every schedule it returns, each day [o] that the loop
    reaches, a Saturday or a Sunday as much as any other day, receives a
    commit dated on that day at a time of day in 09:00..18:59, as long as
    the commits of the days before [o] hold fewer files than were
    scanned; that commit falls on a weekend exactly when day [o] does. *)
Theorem every_day_is_scheduled (sc : Scanner) (g g' : Rng)
    (cs : list commit) (o : Z) :
  prepare_commits sc g = Some (Ok cs, g') ->
  ordinal (start_date sc) <= o ->
  leb (at_day (start_date sc) o) (end_date sc) = true ->
  (List.length (committed (before_day o cs)) < List.length (files sc))%nat ->
  exists c,
    In c cs /\
    on_day (at_day (start_date sc) o) c /\
    DateUtils.is_weekend (fst c)
      = DateUtils.is_weekend (at_day (start_date sc) o).
Proof.
  unfold prepare_commits.
  destruct (negb (nonempty (files sc))); [discriminate|].
  intros H Ho Hle Hlen.
  destruct (date_loop_every_day sc (files sc) _ _ _ _ _ _ _
              (group_by_type_consistent (files sc)) (Forall_nil _) H
              o Ho Hle Hlen) as (c & Hin & Hday).
  exists c. split; [exact Hin|]. split; [exact Hday|].
  destruct Hday as (Hord & _).
  unfold DateUtils.is_weekend, weekday. now rewrite Hord.
Qed.

(** Friday 2024-01-05 to Sunday 2024-01-07, three files, one commit of
    one file a day: the Saturday and the Sunday each get their commit. *)
Lemma every_day_is_scheduled_witness :
  exists cs g',
    prepare_commits long_weekend_scanner (of_draws []) = Some (Ok cs, g') /\
    (exists c,
       In c cs /\
       on_day (at_day (midnight 2024 1 5) (ymd2ord 2024 1 6)) c /\
       DateUtils.is_weekend (fst c) = true) /\
    (exists c,
       In c cs /\
       on_day (at_day (midnight 2024 1 5) (ymd2ord 2024 1 7)) c /\
       DateUtils.is_weekend (fst c) = true).
Proof.
  eexists. eexists. split; [reflexivity|]. split.
  - apply (every_day_is_scheduled long_weekend_scanner (of_draws [])
             {| draws := fun i => nth i [] 0; pos := 15 |} _ (ymd2ord 2024 1 6)).
    + reflexivity.
    + vm_compute. discriminate.
    + reflexivity.
    + vm_compute. lia.
  - apply (every_day_is_scheduled long_weekend_scanner (of_draws [])
             {| draws := fun i => nth i [] 0; pos := 15 |} _ (ymd2ord 2024 1 7)).
    + reflexivity.
    + vm_compute. discriminate.
    + reflexivity.
    + vm_compute. lia.
Defined.

End SchedulerDays.
